(** * AIU chatbot retrieval pipeline (app.py): chunking, indexing, keyword
    search and the two-tier answer generation.

    Python [str] values are modelled as lists of characters, a character
    being a code point in the range U+0000..U+00FF (one [ascii] value).  On
    that range [str.lower], [str.strip], [str.split] and [str.isspace] act
    character by character, which is how they are written below. *)

From Stdlib Require Import Ascii String.
From Stdlib Require Import List Arith Bool Lia PeanoNat Permutation.
Import ListNotations.

(** ** Strings *)

Definition str := list ascii.

Definition lit (s : string) : str := list_ascii_of_string s.

Definition NL : str := ["010"%char].

(** [str.isspace] on one character: TAB..CR, FS..US, SPACE, NEL and NBSP. *)
Definition isspace (c : ascii) : bool :=
  let n := nat_of_ascii c in
  ((9 <=? n) && (n <=? 13)) || ((28 <=? n) && (n <=? 32))
  || (n =? 133) || (n =? 160).

(** [str.lower] on one character: A..Z and the Latin-1 capitals.  On this
    range lower-casing keeps the length of a string; beyond it Python may
    change the length (U+0130 becomes two code points), so what is said of
    the length of query words is said of the lower-cased query. *)
Definition lower_char (c : ascii) : ascii :=
  let n := nat_of_ascii c in
  if ((65 <=? n) && (n <=? 90))
     || ((192 <=? n) && (n <=? 222) && negb (n =? 215))
  then ascii_of_nat (n + 32) else c.

Definition lower (s : str) : str := map lower_char s.

Fixpoint lstrip (s : str) : str :=
  match s with
  | c :: s' => if isspace c then lstrip s' else s
  | [] => []
  end.

Definition rstrip (s : str) : str := rev (lstrip (rev s)).

(** [s.strip()] *)
Definition strip (s : str) : str := rstrip (lstrip s).

(** [s.split()]: maximal runs of non-whitespace characters, left to right.
    [cur] holds the current run, reversed. *)
Fixpoint split_from (cur : str) (s : str) : list str :=
  match s with
  | [] => match cur with [] => [] | _ => [rev cur] end
  | c :: s' =>
      if isspace c
      then match cur with
           | [] => split_from [] s'
           | _ => rev cur :: split_from [] s'
           end
      else split_from (c :: cur) s'
  end.

Definition str_split (s : str) : list str := split_from [] s.

(** [text[start:stop]] for [0 <= start <= stop]; both ends clamp to the length. *)
Definition slice (text : str) (start stop : nat) : str :=
  firstn (stop - start) (skipn start text).

Definition ascii_eqb (a b : ascii) : bool := Ascii.eqb a b.

Fixpoint startswith (s w : str) {struct w} : bool :=
  match w, s with
  | [], _ => true
  | _ :: _, [] => false
  | a :: w', b :: s' => ascii_eqb a b && startswith s' w'
  end.

(** [w in s] on strings: [w] occurs as a contiguous substring of [s]. *)
Fixpoint str_in (w s : str) : bool :=
  startswith s w
  || match s with
     | [] => false
     | _ :: s' => str_in w s'
     end.

(** Truth value of a string or a list: non-empty. *)
Definition truthy {A : Type} (l : list A) : bool :=
  match l with [] => false | _ :: _ => true end.

(** [sep.join(parts)] *)
Fixpoint join (sep : str) (parts : list str) : str :=
  match parts with
  | [] => []
  | [p] => p
  | p :: rest => p ++ sep ++ join sep rest
  end.

(** ** Configuration *)

Definition CHUNK_SIZE : nat := 900.
Definition MAX_CONTEXT_CHUNKS : nat := 4.
Definition OLLAMA_URL : str := lit "http://localhost:11434/api/chat".
Definition OLLAMA_MODEL : str := lit "llama3:latest".

(** ** Chunker *)

(** The [while start < len(text)] loop of [split_into_chunks].  Each unit of
    [fuel] pays for one iteration; [None] means the fuel ran out with the loop
    guard still true. *)
Fixpoint split_loop (fuel : nat) (text : str) (chunk_size start : nat)
    (chunks : list str) : option (list str) :=
  if start <? length text then
    match fuel with
    | 0 => None
    | S fuel' =>
        let stop := start + chunk_size in
        let chunk := slice text start stop in
        split_loop fuel' text chunk_size (start + chunk_size)
                   (chunks ++ [strip chunk])
    end
  else Some chunks.

(** [split_into_chunks(text, chunk_size)].  With a positive [chunk_size] the
    loop runs at most [len(text)] times. *)
Definition split_into_chunks (text : str) (chunk_size : nat)
    : option (list str) :=
  split_loop (length text) text chunk_size 0 [].

(** The trimmed character range [[i*size, (i+1)*size)] of [text]. *)
Definition segment (text : str) (size i : nat) : str :=
  strip (slice text (i * size) (i * size + size)).

(** Number of segments of width [size] needed to cover [len] characters. *)
Definition chunk_count (len size : nat) : nat := (len + (size - 1)) / size.

(** What the Chunker, called with the default size, returns for [text]. *)
Definition chunks_of_document (text : str) : list str :=
  match split_into_chunks text CHUNK_SIZE with
  | Some chunks => chunks
  | None => []
  end.

(** ** Indexer *)

Definition entry : Type := str * str.

(** Inner loop of [build_index]: append the non-empty chunks of one document. *)
Definition add_chunks (name : str) (chunks : list str) (index : list entry)
    : list entry :=
  fold_left
    (fun index chunk =>
       if truthy chunk then index ++ [(name, chunk)] else index)
    chunks index.

Definition build_index (documents : list (str * str)) : option (list entry) :=
  fold_left
    (fun acc doc =>
       let '(name, text) := doc in
       match acc with
       | None => None
       | Some index =>
           match split_into_chunks text CHUNK_SIZE with
           | None => None
           | Some chunks => Some (add_chunks name chunks index)
           end
       end)
    documents (Some []).

(** ** Retriever *)

(** One element of [scored_chunks]: [(score, doc_name, chunk)]. *)
Definition scored : Type := nat * str * str.

Definition score_of (x : scored) : nat := fst (fst x).
Definition entry_of (x : scored) : entry := (snd (fst x), snd x).

(** [[w for w in query.split() if len(w) > 2]] *)
Definition significant_words (query : str) : list str :=
  filter (fun w => 2 <? length w) (str_split query).

(** The inner [for word in query_words] loop: one point per list element
    that is contained in [chunk_lower]. *)
Definition chunk_score (query_words : list str) (chunk_lower : str) : nat :=
  fold_left
    (fun score word => if str_in word chunk_lower then score + 1 else score)
    query_words 0.

(** The outer [for doc_name, chunk in index] loop. *)
Definition score_chunks (query_words : list str) (index : list entry)
    : list scored :=
  fold_left
    (fun scored_chunks e =>
       let '(doc_name, chunk) := e in
       let chunk_lower := lower chunk in
       let score := chunk_score query_words chunk_lower in
       if 0 <? score
       then scored_chunks ++ [(score, doc_name, chunk)]
       else scored_chunks)
    index [].

(** [list.sort(key=..., reverse=True)]: a stable sort by descending key.
    It is written as an insertion sort; [sort_desc_unique] below shows that
    any stable descending sort returns the same list. *)
Section Sort.
Context {A : Type}.
Variable key : A -> nat.

Fixpoint insert_desc (x : A) (l : list A) : list A :=
  match l with
  | [] => [x]
  | y :: l' =>
      if key x <? key y then y :: insert_desc x l' else x :: y :: l'
  end.

Definition sort_desc (l : list A) : list A := fold_right insert_desc [] l.

(** Keys never increase from left to right. *)
Fixpoint descending (l : list A) : bool :=
  match l with
  | [] => true
  | x :: l' =>
      match l' with
      | [] => true
      | y :: _ => (key y <=? key x) && descending l'
      end
  end.

(** The elements of [l] whose key is [k], in their order in [l]. *)
Definition with_key (k : nat) (l : list A) : list A :=
  filter (fun x => key x =? k) l.
End Sort.

Definition search_index (query : str) (index : list entry) : list entry :=
  let query := lower (strip query) in
  if negb (truthy query) then []
  else
    let query_words := significant_words query in
    if negb (truthy query_words) then []
    else
      let scored_chunks := score_chunks query_words index in
      let scored_chunks := sort_desc score_of scored_chunks in
      let top_chunks := firstn MAX_CONTEXT_CHUNKS scored_chunks in
      fold_left (fun results x => results ++ [entry_of x]) top_chunks [].

(** The query words [search_index] scores with. *)
Definition query_words_of (query : str) : list str :=
  significant_words (lower (strip query)).

(** The score [search_index] gives the chunk of an index entry. *)
Definition entry_score (query : str) (e : entry) : nat :=
  chunk_score (query_words_of query) (lower (snd e)).

(** The element [score_chunks] appends for an index entry. *)
Definition scored_entry (query_words : list str) (e : entry) : scored :=
  (chunk_score query_words (lower (snd e)), fst e, snd e).

(** The sorted and truncated [top_chunks] of [search_index]. *)
Definition top_chunks (query : str) (index : list entry) : list scored :=
  firstn MAX_CONTEXT_CHUNKS
    (sort_desc score_of (score_chunks (query_words_of query) index)).

Definition str_eq_dec : forall a b : str, {a = b} + {a <> b} :=
  list_eq_dec ascii_dec.

(** Score as the specification words it: the number of distinct query
    words that occur in the chunk. *)
Definition spec_distinct_score (query_words : list str) (chunk_lower : str)
    : nat :=
  length (filter (fun w => str_in w chunk_lower)
                 (nodup str_eq_dec query_words)).

(** ** Generation client *)

Inductive exn : Type :=
| ConnectionError            (* [requests.post]: transport failure or timeout *)
| HTTPError (status : nat)   (* [response.raise_for_status()] *)
| JSONDecodeError            (* [response.json()] *)
| KeyError.                  (* [data["message"]["content"]] *)

(** What the body of a response decodes to. *)
Inductive body : Type :=
| Malformed
| MissingContent
| Content (text : str).

Inductive reply : Type :=
| NoReply
| Response (status : nat) (b : body).

Record payload : Type := {
  model : str;
  messages : list (str * str);   (* (role, content) *)
  stream : bool
}.

Record request : Type := {
  url : str;
  json : payload;
  timeout : nat
}.

(** Observable effects: a POST to the backend, a warning shown to the user. *)
Inductive event : Type :=
| Post (r : request)
| Warning (e : exn).

Inductive outcome (A : Type) : Type :=
| Ret (a : A)
| Raise (e : exn).
Arguments Ret {A} a.
Arguments Raise {A} e.

(** Computations that may raise and that extend the log of events. *)
Definition M (A : Type) : Type := list event -> outcome A * list event.

Definition ret {A : Type} (a : A) : M A := fun log => (Ret a, log).

Definition raise {A : Type} (e : exn) : M A := fun log => (Raise e, log).

Definition bind {A B : Type} (m : M A) (k : A -> M B) : M B :=
  fun log =>
    match m log with
    | (Ret a, log') => k a log'
    | (Raise e, log') => (Raise e, log')
    end.

(** [try: m except Exception as e: handler(e)] *)
Definition try_except {A : Type} (m : M A) (handler : exn -> M A) : M A :=
  fun log =>
    match m log with
    | (Ret a, log') => (Ret a, log')
    | (Raise e, log') => handler e log'
    end.

Definition emit (ev : event) : M unit := fun log => (Ret tt, log ++ [ev]).

Notation "x <- m ;; k" := (bind m (fun x => k))
  (at level 61, m at next level, right associativity).

Definition DQ : str := ["034"%char].

Definition system_prompt : str :=
  lit "You are a helpful assistant for Africa International University (AIU) PDF documents. "
  ++ lit "You MUST answer strictly and only using the information in the provided CONTEXT. "
  ++ lit "If the answer is not explicitly in the context, you MUST reply: "
  ++ DQ ++ lit "I am not sure; the PDFs I have do not say that clearly." ++ DQ
  ++ lit " "
  ++ lit "Do NOT invent facts. Do not use outside knowledge. "
  ++ lit "Be clear, concise, and friendly.".

Definition user_prompt (question context : str) : str :=
  lit "QUESTION:" ++ NL ++ question ++ NL ++ NL
  ++ lit "CONTEXT (from AIU PDFs):" ++ NL ++ context ++ NL ++ NL
  ++ lit "Now give a clear, student-friendly answer using only this context. "
  ++ lit "If the context does not contain the answer, say you are not sure.".

Definition NO_MATCH_MESSAGE : str :=
  lit "I could not find a matching answer to your question in the PDFs. "
  ++ lit "Try using different words that might appear in the documents.".

Definition NO_EXACT_ANSWER_MESSAGE : str :=
  lit "I could not find an exact answer to your question in the available PDFs. "
  ++ lit "Please try rephrasing your question or checking the documents directly.".

Definition count_posts (log : list event) : nat :=
  length (filter (fun ev => match ev with Post _ => true | _ => false end) log).

Section Answer.
(** [textwrap.fill(text, width)] of the Python standard library. *)
Variable textwrap_fill : str -> nat -> str.
(** The generation backend: its reply to a request, given the events so far. *)
Variable backend : list event -> request -> reply.

(** [requests.post(url, json=payload, timeout=t)] *)
Definition requests_post (u : str) (p : payload) (t : nat)
    : M (nat * body) :=
  fun log =>
    let r := {| url := u; json := p; timeout := t |} in
    match backend log r with
    | NoReply => (Raise ConnectionError, log ++ [Post r])
    | Response status b => (Ret (status, b), log ++ [Post r])
    end.

(** [response.raise_for_status()] *)
Definition raise_for_status (response : nat * body) : M unit :=
  let status := fst response in
  if (400 <=? status) && (status <? 600)
  then raise (HTTPError status) else ret tt.

(** [response.json()["message"]["content"]] *)
Definition message_content (response : nat * body) : M str :=
  match snd response with
  | Malformed => raise JSONDecodeError
  | MissingContent => raise KeyError
  | Content text => ret text
  end.

Definition call_ollama_llm (question context : str) : M str :=
  let p := {| model := OLLAMA_MODEL;
              messages := [(lit "system", system_prompt);
                           (lit "user", user_prompt question context)];
              stream := false |} in
  response <- requests_post OLLAMA_URL p 120 ;;
  _ <- raise_for_status response ;;
  message_content response.

(** One block of the excerpt answer. *)
Definition excerpt_block (m : entry) : str :=
  let '(doc_name, chunk) := m in
  let wrapped := textwrap_fill chunk 90 in
  lit "From **" ++ doc_name ++ lit "**:" ++ NL ++ NL ++ wrapped.

Definition BLOCK_SEPARATOR : str := NL ++ NL ++ lit "---" ++ NL ++ NL.

Definition build_strict_answer_from_chunks (matches : list entry) : str :=
  if negb (truthy matches) then NO_EXACT_ANSWER_MESSAGE
  else
    let blocks :=
      fold_left (fun blocks m => blocks ++ [excerpt_block m]) matches [] in
    join BLOCK_SEPARATOR blocks.

Definition context_piece (m : entry) : str :=
  let '(doc_name, chunk) := m in
  lit "Document: " ++ doc_name ++ NL ++ chunk.

Definition CONTEXT_SEPARATOR : str := NL ++ NL ++ lit "-----" ++ NL ++ NL.

Definition generate_answer (query : str) (index : list entry)
    (use_llm : bool) : M str :=
  let matches := search_index query index in
  if negb (truthy matches) then ret NO_MATCH_MESSAGE
  else
    let context_pieces :=
      fold_left (fun pieces m => pieces ++ [context_piece m]) matches [] in
    let context_text := join CONTEXT_SEPARATOR context_pieces in
    try_except
      (call_ollama_llm query context_text)
      (fun e =>
         _ <- emit (Warning e) ;;
         ret (build_strict_answer_from_chunks matches)).
End Answer.

(** ** Document loading *)

Definition PDF_FOLDER : str := lit "data/PDF".

(** [s.endswith(suffix)] *)
Definition endswith (s suffix : str) : bool :=
  startswith (rev s) (rev suffix).

(** What reading one PDF file comes to: opening it or extracting a page
    raises; every page is extracted ([extract_text()] gives a string or
    [None]); or every page is extracted and leaving the [with] block
    raises. *)
Inductive pdf_file : Type :=
| Unreadable (message : str)
| Pages (pages : list (option str))
| CloseFailed (pages : list (option str)) (message : str).

(** [st.warning(f"Could not read {filename}: {e}")] *)
Inductive load_warning : Type :=
| CouldNotRead (filename message : str).

(** [page.extract_text() or ""] *)
Definition page_text (extracted : option str) : str :=
  match extracted with
  | Some text => if truthy text then text else lit ""
  | None => lit ""
  end.

(** ["\n".join(pages_text).strip()], where [pages_text] is filled by the
    loop over the pages. *)
Definition full_text_of (pages : list (option str)) : str :=
  let pages_text :=
    fold_left (fun pages_text page => pages_text ++ [page_text page])
              pages [] in
  strip (join NL pages_text).

Section Loading.
(** The file system and the PDF library: [os.path.isdir], [os.listdir],
    [os.path.join] and [pdfplumber.open] with the page extraction.
    [listdir] is the listing [os.listdir] returns; a run in which
    [os.listdir] itself raises returns nothing and is not described here. *)
Variable isdir : str -> bool.
Variable listdir : str -> list str.
Variable path_join : str -> str -> str.
Variable pdfplumber_open : str -> pdf_file.

(** One iteration of [for filename in os.listdir(folder_path)]. *)
Definition load_file (folder_path : str)
    (state : list (str * str) * list load_warning) (filename : str)
    : list (str * str) * list load_warning :=
  let '(documents, warnings) := state in
  if endswith (lower filename) (lit ".pdf") then
    let full_path := path_join folder_path filename in
    match pdfplumber_open full_path with
    | Unreadable message =>
        (documents, warnings ++ [CouldNotRead filename message])
    | Pages pages =>
        let full_text := full_text_of pages in
        if truthy full_text
        then (documents ++ [(filename, full_text)], warnings)
        else (documents, warnings)
    | CloseFailed pages message =>
        let full_text := full_text_of pages in
        if truthy full_text
        then (documents ++ [(filename, full_text)],
              warnings ++ [CouldNotRead filename message])
        else (documents, warnings ++ [CouldNotRead filename message])
    end
  else state.

(** [load_pdfs(folder_path)]: the documents returned and the warnings shown. *)
Definition load_pdfs (folder_path : str)
    : list (str * str) * list load_warning :=
  if negb (isdir folder_path) then ([], [])
  else fold_left (load_file folder_path) (listdir folder_path) ([], []).
End Loading.

(** Comparison of strings, code point by code point. *)
Fixpoint str_ltb (a b : str) : bool :=
  match a, b with
  | [], [] => false
  | [], _ :: _ => true
  | _ :: _, [] => false
  | x :: a', y :: b' =>
      if nat_of_ascii x <? nat_of_ascii y then true
      else if nat_of_ascii y <? nat_of_ascii x then false
      else str_ltb a' b'
  end.

(** [sorted({...})]: the distinct elements in ascending order. *)
Fixpoint insert_name (x : str) (l : list str) : list str :=
  match l with
  | [] => [x]
  | y :: l' =>
      if str_ltb x y then x :: l
      else if str_ltb y x then y :: insert_name x l'
      else l
  end.

Definition sorted_set (names : list str) : list str :=
  fold_right insert_name [] names.

(** Strictly ascending lists of strings. *)
Fixpoint ascending (l : list str) : bool :=
  match l with
  | [] => true
  | x :: l' =>
      match l' with
      | [] => true
      | y :: _ => str_ltb x y && ascending l'
      end
  end.

(** [get_index()], computed once: the index, the sorted document names and
    the warnings shown while loading. *)
Definition get_index (isdir : str -> bool) (listdir : str -> list str)
    (path_join : str -> str -> str) (pdfplumber_open : str -> pdf_file)
    : option (list entry * list str) * list load_warning :=
  let '(documents, warnings) :=
    load_pdfs isdir listdir path_join pdfplumber_open PDF_FOLDER in
  match build_index documents with
  | None => (None, warnings)
  | Some index =>
      let doc_names := sorted_set (map fst documents) in
      (Some (index, doc_names), warnings)
  end.

(** The request [call_ollama_llm] posts for a question and a context. *)
Definition chat_request (question context : str) : request :=
  {| url := OLLAMA_URL;
     json := {| model := OLLAMA_MODEL;
                messages := [(lit "system", system_prompt);
                             (lit "user", user_prompt question context)];
                stream := false |};
     timeout := 120 |}.

(** The context [generate_answer] assembles from the matches. *)
Definition context_text_of (matches : list entry) : str :=
  join CONTEXT_SEPARATOR (map context_piece matches).

Definition nonspace (c : ascii) : bool := negb (isspace c).

(** The documents and the warnings one listed file adds in [load_pdfs]. *)
Definition file_documents (path_join : str -> str -> str)
    (pdfplumber_open : str -> pdf_file) (folder_path filename : str)
    : list (str * str) :=
  if endswith (lower filename) (lit ".pdf") then
    match pdfplumber_open (path_join folder_path filename) with
    | Unreadable _ => []
    | Pages pages | CloseFailed pages _ =>
        if truthy (full_text_of pages)
        then [(filename, full_text_of pages)] else []
    end
  else [].

Definition file_warnings (path_join : str -> str -> str)
    (pdfplumber_open : str -> pdf_file) (folder_path filename : str)
    : list load_warning :=
  if endswith (lower filename) (lit ".pdf") then
    match pdfplumber_open (path_join folder_path filename) with
    | Unreadable message | CloseFailed _ message =>
        [CouldNotRead filename message]
    | Pages _ => []
    end
  else [].

(** * Properties *)

(** ** Lists *)

Lemma fold_left_snoc {A B : Type} (f : A -> B) (l : list A) (acc : list B) :
  fold_left (fun r x => r ++ [f x]) l acc = acc ++ map f l.
Proof.
  revert acc; induction l as [|x l IH]; intros acc; simpl.
  - now rewrite app_nil_r.
  - rewrite IH, <- app_assoc. reflexivity.
Qed.

Lemma fold_left_snoc_if {A B : Type} (p : A -> bool) (f : A -> B)
    (l : list A) (acc : list B) :
  fold_left (fun r x => if p x then r ++ [f x] else r) l acc
  = acc ++ map f (filter p l).
Proof.
  revert acc; induction l as [|x l IH]; intros acc; simpl.
  - now rewrite app_nil_r.
  - rewrite IH. destruct (p x); simpl.
    + now rewrite <- app_assoc.
    + reflexivity.
Qed.

Lemma nth_error_map_seq {B : Type} (f : nat -> B) (n i : nat) :
  nth_error (map f (seq 0 n)) i = if i <? n then Some (f i) else None.
Proof.
  destruct (Nat.ltb_spec i n) as [Hlt|Hge].
  - rewrite nth_error_map, nth_error_seq.
    apply Nat.ltb_lt in Hlt. rewrite Hlt. reflexivity.
  - apply nth_error_None. now rewrite length_map, length_seq.
Qed.

Lemma filter_firstn {A : Type} (p : A -> bool) (n : nat) (l : list A) :
  exists m, filter p (firstn n l) = firstn m (filter p l).
Proof.
  revert n; induction l as [|x l IH]; intros n.
  - exists 0. now rewrite firstn_nil.
  - destruct n as [|n]; simpl.
    + now exists 0.
    + destruct (IH n) as [m Hm]. destruct (p x).
      * exists (S m). simpl. now rewrite Hm.
      * now exists m.
Qed.

(** ** Strings *)

Lemma lstrip_length (s : str) : length (lstrip s) <= length s.
Proof.
  induction s as [|c s IH]; simpl; [lia|].
  destruct (isspace c); simpl; lia.
Qed.

Lemma strip_length (s : str) : length (strip s) <= length s.
Proof.
  unfold strip, rstrip. rewrite length_rev.
  etransitivity; [apply lstrip_length|].
  rewrite length_rev. apply lstrip_length.
Qed.

Lemma slice_length (text : str) (start stop : nat) :
  length (slice text start stop) <= stop - start.
Proof. unfold slice. apply firstn_le_length. Qed.

Lemma slice_whole (text : str) (stop : nat) :
  length text <= stop -> slice text 0 stop = text.
Proof.
  intros H. unfold slice. rewrite Nat.sub_0_r. simpl.
  now apply firstn_all2.
Qed.

Lemma startswith_spec (s w : str) :
  startswith s w = true <-> exists b, s = w ++ b.
Proof.
  revert s; induction w as [|a w IH]; intros s; simpl.
  - split; [now exists s | reflexivity].
  - destruct s as [|c s].
    + split; [discriminate | intros [b Hb]; discriminate].
    + rewrite andb_true_iff, IH. unfold ascii_eqb. rewrite Ascii.eqb_eq.
      split.
      * intros [-> [b ->]]. now exists b.
      * intros [b Hb]. injection Hb as -> ->. split; [reflexivity|now exists b].
Qed.

Lemma str_in_spec (w s : str) :
  str_in w s = true <-> exists a b, s = a ++ w ++ b.
Proof.
  induction s as [|c s IH].
  - simpl. rewrite orb_false_r, startswith_spec. split.
    + intros [b Hb]. now exists [], b.
    + intros [a [b Hb]]. destruct a; [now exists b|discriminate].
  - change (str_in w (c :: s))
      with (startswith (c :: s) w || str_in w s).
    rewrite orb_true_iff, startswith_spec, IH. split.
    + intros [[b Hb]|[a [b Hb]]].
      * now exists [], b.
      * exists (c :: a), b. now rewrite Hb.
    + intros [a [b Hb]]. destruct a as [|c' a].
      * left. now exists b.
      * right. injection Hb as _ Hb. now exists a, b.
Qed.

(** ** Chunker *)

Lemma chunk_count_0 (size : nat) : 0 < size -> chunk_count 0 size = 0.
Proof.
  intros H. unfold chunk_count. apply Nat.div_small. lia.
Qed.

Lemma chunk_count_step (len size : nat) :
  0 < size -> 0 < len ->
  chunk_count len size = S (chunk_count (len - size) size).
Proof.
  intros Hs Hl. unfold chunk_count.
  destruct (Nat.le_gt_cases len size) as [Hle|Hgt].
  - replace (len - size) with 0 by lia.
    rewrite (Nat.div_small (0 + (size - 1)) size) by lia.
    symmetry. apply Nat.div_unique with (r := len - 1); lia.
  - replace (len + (size - 1)) with ((len - size + (size - 1)) + 1 * size)
      by lia.
    rewrite Nat.div_add by lia. lia.
Qed.

Lemma chunk_count_lt (len size i : nat) :
  0 < size -> (i < chunk_count len size <-> i * size < len).
Proof.
  intros Hs. unfold chunk_count. split.
  - intros Hi.
    destruct (Nat.lt_ge_cases (i * size) len) as [H|H]; [exact H|].
    exfalso.
    assert ((len + (size - 1)) / size < S i); [|lia].
    apply Nat.Div0.div_lt_upper_bound; nia.
  - intros Hi.
    assert (S i <= (len + (size - 1)) / size); [|lia].
    apply Nat.div_le_lower_bound; nia.
Qed.

(** The loop started at offset [start] appends the trimmed ranges
    [start + i*size, start + (i+1)*size) that begin inside the text. *)
Lemma split_loop_spec (text : str) (size : nat) :
  0 < size ->
  forall fuel start chunks,
    length text <= start + fuel * size ->
    split_loop fuel text size start chunks
    = Some (chunks
            ++ map (fun i => strip (slice text (start + i * size)
                                                 (start + i * size + size)))
                   (seq 0 (chunk_count (length text - start) size))).
Proof.
  intros Hs. induction fuel as [|fuel IH]; intros start chunks Hfuel.
  - simpl. destruct (Nat.ltb_spec start (length text)) as [Hlt|Hge]; [lia|].
    replace (length text - start) with 0 by lia.
    rewrite chunk_count_0 by exact Hs. simpl. now rewrite app_nil_r.
  - simpl. destruct (Nat.ltb_spec start (length text)) as [Hlt|Hge].
    + rewrite IH by lia.
      rewrite (@chunk_count_step (length text - start) size) by lia.
      replace (length text - start - size)
        with (length text - (start + size)) by lia.
      rewrite <- app_assoc. simpl. f_equal. f_equal.
      rewrite Nat.add_0_r. f_equal.
      rewrite <- seq_shift, map_map. apply map_ext. intros i.
      f_equal. f_equal; lia.
    + replace (length text - start) with 0 by lia.
      rewrite chunk_count_0 by exact Hs. simpl. now rewrite app_nil_r.
Qed.

(** For a positive size the loop ends by its guard, and the result is the
    list of trimmed segments. *)
Lemma split_into_chunks_segments (text : str) (size : nat) :
  0 < size ->
  split_into_chunks text size
  = Some (map (segment text size) (seq 0 (chunk_count (length text) size))).
Proof.
  intros Hs. unfold split_into_chunks.
  rewrite split_loop_spec by nia.
  rewrite Nat.sub_0_r. reflexivity.
Qed.

(** A size of zero never advances [start]: the loop does not end. *)
Lemma split_loop_zero_size (text : str) (fuel : nat) (chunks : list str) :
  text <> [] -> split_loop fuel text 0 0 chunks = None.
Proof.
  intros Hne. revert chunks; induction fuel as [|fuel IH]; intros chunks.
  - destruct text; [contradiction|reflexivity].
  - destruct text as [|c text]; [contradiction|].
    change (split_loop (S fuel) (c :: text) 0 0 chunks)
      with (split_loop fuel (c :: text) 0 (0 + 0)
              (chunks ++ [strip (slice (c :: text) 0 (0 + 0))])).
    apply IH.
Qed.

Lemma segment_length (text : str) (size i : nat) :
  length (segment text size i) <= size.
Proof.
  unfold segment. etransitivity; [apply strip_length|].
  etransitivity; [apply slice_length|]. lia.
Qed.

Lemma chunks_of_document_segments (text : str) :
  chunks_of_document text
  = map (segment text CHUNK_SIZE)
        (seq 0 (chunk_count (length text) CHUNK_SIZE)).
Proof.
  unfold chunks_of_document.
  rewrite split_into_chunks_segments; [reflexivity|].
  unfold CHUNK_SIZE. lia.
Qed.

Lemma split_into_chunks_nth (text : str) (size i : nat) :
  0 < size ->
  nth_error (map (segment text size)
                 (seq 0 (chunk_count (length text) size))) i
  = if i * size <? length text then Some (segment text size i) else None.
Proof.
  intros Hs. rewrite nth_error_map_seq.
  destruct (Nat.ltb_spec (i * size) (length text)) as [H|H].
  - apply (chunk_count_lt (length text) size i Hs) in H.
    apply Nat.ltb_lt in H. now rewrite H.
  - destruct (Nat.ltb_spec i (chunk_count (length text) size)) as [H'|H'].
    + apply (chunk_count_lt (length text) size i Hs) in H'. lia.
    + reflexivity.
Qed.

Lemma add_chunks_filter (name : str) (chunks : list str) (index : list entry) :
  add_chunks name chunks index
  = index ++ map (pair name) (filter truthy chunks).
Proof. unfold add_chunks. apply fold_left_snoc_if. Qed.

(** C5, amended.  For a positive chunk size [split_into_chunks] returns; its
    i-th chunk is the character range [i*S, (i+1)*S) of the text with leading
    and trailing whitespace removed, for every i whose range starts inside
    the text, and there is no further chunk; every chunk has at most S
    characters.  A non-empty text shorter than S gives exactly one chunk, the
    trimmed text (the empty string when the text is all whitespace); the
    empty text gives no chunk. *)
Theorem split_into_chunks_ranges (text : str) (size : nat) :
  0 < size ->
  exists chunks,
    split_into_chunks text size = Some chunks
    /\ (forall i,
          nth_error chunks i
          = if i * size <? length text
            then Some (strip (slice text (i * size) ((i + 1) * size)))
            else None)
    /\ (forall c, In c chunks -> length c <= size)
    /\ (text <> [] -> length text < size -> chunks = [strip text])
    /\ (text = [] -> chunks = []).
Proof.
  intros Hs.
  exists (map (segment text size) (seq 0 (chunk_count (length text) size))).
  split; [now apply split_into_chunks_segments|].
  split; [|split; [|split]].
  - intros i. rewrite split_into_chunks_nth by exact Hs.
    unfold segment. now replace ((i + 1) * size) with (i * size + size) by lia.
  - intros c Hc. apply in_map_iff in Hc. destruct Hc as [i [<- _]].
    apply segment_length.
  - intros Hne Hlt.
    assert (Hpos : 0 < length text) by (destruct text; [contradiction|simpl; lia]).
    rewrite (chunk_count_step (length text) size Hs Hpos).
    replace (length text - size) with 0 by lia.
    rewrite chunk_count_0 by exact Hs. simpl.
    unfold segment. simpl. rewrite slice_whole by lia. reflexivity.
  - intros ->. simpl. now rewrite chunk_count_0 by exact Hs.
Qed.

Lemma split_into_chunks_ranges_witness :
  exists chunks,
    split_into_chunks (lit "ab cd  efg") 3 = Some chunks
    /\ nth_error chunks 2 = Some (lit "ef")
    /\ nth_error chunks 4 = None.
Proof.
  destruct (@split_into_chunks_ranges (lit "ab cd  efg") 3) as
    [chunks [Hrun [Hnth _]]]; [lia|].
  exists chunks. split; [exact Hrun|]. split.
  - rewrite (Hnth 2). reflexivity.
  - rewrite (Hnth 4). reflexivity.
Defined.

(** C5 as first stated fails: a text of one space is shorter than the chunk
    size and trims to the empty string, yet the Chunker returns one chunk
    (the empty string), not zero. *)
Lemma split_into_chunks_blank_text_one_chunk :
  ~ (forall text size,
        0 < size -> length text < size -> strip text = [] ->
        split_into_chunks text size = Some []).
Proof.
  intros H. specialize (H (lit " ") CHUNK_SIZE).
  assert (E : split_into_chunks (lit " ") CHUNK_SIZE = Some [[]])
    by (vm_compute; reflexivity).
  rewrite E in H.
  assert (Some [[]] = Some (@nil str)) as Habs.
  { apply H; vm_compute; [lia | lia | reflexivity]. }
  discriminate Habs.
Qed.

(** C3, amended.  For a positive chunk size [split_into_chunks] returns one
    string per segment [i*S, (i+1)*S) that starts inside the text, each
    trimmed.  A segment that trims to the empty string stays in the
    Chunker's output as the empty string, so the i-th string always belongs
    to the i-th segment; it is the Indexer that leaves the empty strings
    out when it appends the chunks of a document. *)
Theorem split_into_chunks_keeps_blank_segments (text : str) (size : nat) :
  0 < size ->
  exists chunks,
    split_into_chunks text size = Some chunks
    /\ length chunks = chunk_count (length text) size
    /\ (forall i, i * size < length text ->
          nth_error chunks i
          = Some (strip (slice text (i * size) (i * size + size))))
    /\ (In [] chunks <->
        exists i, i * size < length text
                  /\ strip (slice text (i * size) (i * size + size)) = [])
    /\ (forall name index,
          add_chunks name chunks index
          = index ++ map (pair name) (filter truthy chunks)).
Proof.
  intros Hs.
  exists (map (segment text size) (seq 0 (chunk_count (length text) size))).
  split; [now apply split_into_chunks_segments|].
  split; [now rewrite length_map, length_seq|].
  split; [|split].
  - intros i Hi. rewrite split_into_chunks_nth by exact Hs.
    apply Nat.ltb_lt in Hi. now rewrite Hi.
  - rewrite in_map_iff. split.
    + intros [i [Hseg Hin]]. exists i. split; [|exact Hseg].
      apply in_seq in Hin. apply (chunk_count_lt (length text) size i Hs). lia.
    + intros [i [Hi Hseg]]. exists i. split; [exact Hseg|].
      apply in_seq. apply (chunk_count_lt (length text) size i Hs) in Hi. lia.
  - intros name index. apply add_chunks_filter.
Qed.

Lemma split_into_chunks_keeps_blank_segments_witness :
  exists chunks,
    split_into_chunks (lit "ab    cd") 3 = Some chunks
    /\ nth_error chunks 1 = Some []
    /\ nth_error chunks 2 = Some (lit "cd").
Proof.
  destruct (@split_into_chunks_keeps_blank_segments (lit "ab    cd") 3) as
    [chunks [Hrun [_ [Hnth _]]]]; [lia|].
  exists chunks. split; [exact Hrun|]. split.
  - rewrite (Hnth 1) by (simpl; lia). reflexivity.
  - rewrite (Hnth 2) by (simpl; lia). reflexivity.
Defined.

(** C3 as first stated fails: on three spaces with chunk size 3 the output
    of the Chunker is the list holding the empty string. *)
Lemma split_into_chunks_returns_empty_string :
  ~ (forall text size chunks,
        0 < size -> split_into_chunks text size = Some chunks ->
        forall c, In c chunks -> strip c <> []).
Proof.
  intros H.
  apply (H (lit "   ") 3 [[]] ltac:(lia) eq_refl [] (or_introl eq_refl)).
  reflexivity.
Qed.

(** ** Indexer *)

Lemma build_index_from (documents : list (str * str)) (acc : list entry) :
  fold_left
    (fun acc doc =>
       let '(name, text) := doc in
       match acc with
       | None => None
       | Some index =>
           match split_into_chunks text CHUNK_SIZE with
           | None => None
           | Some chunks => Some (add_chunks name chunks index)
           end
       end)
    documents (Some acc)
  = Some (acc ++ flat_map
                   (fun d => map (pair (fst d))
                                 (filter truthy (chunks_of_document (snd d))))
                   documents).
Proof.
  revert acc; induction documents as [|[name text] documents IH]; intros acc.
  - simpl. now rewrite app_nil_r.
  - cbn [fold_left flat_map fst snd].
    unfold chunks_of_document at 1.
    rewrite split_into_chunks_segments by (unfold CHUNK_SIZE; lia).
    rewrite IH, add_chunks_filter, <- app_assoc. reflexivity.
Qed.

(** C9.  [build_index] returns for every sequence of documents; the index
    is, document after document, the non-empty strings the Chunker returns
    for that document, in the Chunker's order and each paired with the
    document name (so every such chunk occurs once, in its place), and no
    entry of the index has the empty string as its chunk text. *)
Theorem build_index_complete (documents : list (str * str)) :
  (forall text,
      split_into_chunks text CHUNK_SIZE = Some (chunks_of_document text))
  /\ exists index,
       build_index documents = Some index
       /\ index = flat_map
                    (fun d => map (pair (fst d))
                                  (filter truthy (chunks_of_document (snd d))))
                    documents
       /\ (forall e, In e index -> snd e <> []).
Proof.
  split.
  - intros text. rewrite chunks_of_document_segments.
    apply split_into_chunks_segments. unfold CHUNK_SIZE. lia.
  - eexists. split; [|split; [reflexivity|]].
    + unfold build_index. rewrite build_index_from. reflexivity.
    + intros e He. apply in_flat_map in He. destruct He as [d [_ He]].
      apply in_map_iff in He. destruct He as [c [<- Hc]].
      apply filter_In in Hc. destruct Hc as [_ Hc].
      simpl. destruct c; [discriminate|discriminate].
Qed.

Lemma in_firstn {A : Type} (n : nat) (x : A) (l : list A) :
  In x (firstn n l) -> In x l.
Proof.
  intros H. rewrite <- (firstn_skipn n l). apply in_or_app. now left.
Qed.

(** ** Stable descending sort *)

Section SortFacts.
Context {A : Type}.
Variable key : A -> nat.

Lemma with_key_insert_desc (k : nat) (x : A) (l : list A) :
  with_key key k (insert_desc key x l) = with_key key k (x :: l).
Proof.
  induction l as [|y l IH]; [reflexivity|].
  simpl. destruct (Nat.ltb_spec (key x) (key y)) as [Hlt|Hge];
    [|reflexivity].
  unfold with_key in *. simpl in *. rewrite IH.
  destruct (Nat.eqb_spec (key x) k) as [Hx|Hx];
    destruct (Nat.eqb_spec (key y) k) as [Hy|Hy]; try reflexivity.
  lia.
Qed.

(** Stability: elements with equal keys keep their original order. *)
Lemma with_key_sort_desc (k : nat) (l : list A) :
  with_key key k (sort_desc key l) = with_key key k l.
Proof.
  induction l as [|x l IH]; [reflexivity|].
  simpl. rewrite with_key_insert_desc.
  unfold with_key in *. simpl. now rewrite IH.
Qed.

Lemma descending_cons (x : A) (l : list A) :
  descending key (x :: l) = true <->
  (forall y, In y l -> key y <= key x) /\ descending key l = true.
Proof.
  revert x; induction l as [|y l IH]; intros x.
  - simpl. split; [intros _; split; [intros y []|reflexivity]|reflexivity].
  - change (descending key (x :: y :: l))
      with ((key y <=? key x) && descending key (y :: l)).
    rewrite andb_true_iff, Nat.leb_le. split.
    + intros [Hyx Hd]. split; [|exact Hd].
      intros z [<-|Hz]; [exact Hyx|].
      apply IH in Hd. destruct Hd as [Hd _]. specialize (Hd z Hz). lia.
    + intros [Hall Hd]. split; [|exact Hd]. apply Hall. now left.
Qed.

Lemma in_insert_desc (x y : A) (l : list A) :
  In y (insert_desc key x l) <-> y = x \/ In y l.
Proof.
  induction l as [|z l IH]; simpl.
  - intuition congruence.
  - destruct (key x <? key z); simpl; [rewrite IH|]; intuition congruence.
Qed.

Lemma in_sort_desc (y : A) (l : list A) :
  In y (sort_desc key l) <-> In y l.
Proof.
  induction l as [|x l IH]; simpl; [reflexivity|].
  rewrite in_insert_desc, IH. intuition congruence.
Qed.

Lemma descending_insert_desc (x : A) (l : list A) :
  descending key l = true -> descending key (insert_desc key x l) = true.
Proof.
  induction l as [|y l IH]; intros Hd; [reflexivity|].
  simpl. destruct (Nat.ltb_spec (key x) (key y)) as [Hlt|Hge].
  - apply descending_cons in Hd. destruct Hd as [Hall Hd].
    apply descending_cons. split; [|now apply IH].
    intros z Hz. apply in_insert_desc in Hz.
    destruct Hz as [->|Hz]; [lia|now apply Hall].
  - change (descending key (x :: y :: l))
      with ((key y <=? key x) && descending key (y :: l)).
    rewrite Hd. apply andb_true_iff. split; [now apply Nat.leb_le|reflexivity].
Qed.

Lemma descending_sort_desc (l : list A) :
  descending key (sort_desc key l) = true.
Proof.
  induction l as [|x l IH]; [reflexivity|].
  simpl. now apply descending_insert_desc.
Qed.

Lemma descending_firstn (n : nat) (l : list A) :
  descending key l = true -> descending key (firstn n l) = true.
Proof.
  revert n; induction l as [|x l IH]; intros n Hd.
  - now rewrite firstn_nil.
  - destruct n as [|n]; [reflexivity|].
    rewrite firstn_cons. apply descending_cons in Hd.
    destruct Hd as [Hall Hd]. apply descending_cons. split.
    + intros y Hy. apply Hall. now apply (in_firstn n).
    + now apply IH.
Qed.

Lemma in_with_key (k : nat) (x : A) (l : list A) :
  In x (with_key key k l) <-> In x l /\ key x = k.
Proof. unfold with_key. now rewrite filter_In, Nat.eqb_eq. Qed.

(** A descending list is determined by its classes of equal keys: every
    stable descending sort of [l] returns [sort_desc l]. *)
Lemma descending_unique (l1 l2 : list A) :
  descending key l1 = true -> descending key l2 = true ->
  (forall k, with_key key k l1 = with_key key k l2) ->
  l1 = l2.
Proof.
  revert l2; induction l1 as [|x1 l1 IH]; intros l2 H1 H2 Hk.
  - destruct l2 as [|x2 l2]; [reflexivity|].
    specialize (Hk (key x2)). unfold with_key in Hk. simpl in Hk.
    rewrite Nat.eqb_refl in Hk. discriminate.
  - destruct l2 as [|x2 l2].
    + specialize (Hk (key x1)). unfold with_key in Hk. simpl in Hk.
      rewrite Nat.eqb_refl in Hk. discriminate.
    + apply descending_cons in H1. destruct H1 as [Hall1 H1].
      apply descending_cons in H2. destruct H2 as [Hall2 H2].
      assert (Hle1 : key x2 <= key x1).
      { assert (Hin : In x2 (with_key key (key x2) (x1 :: l1))).
        { rewrite Hk. apply in_with_key. split; [now left|reflexivity]. }
        apply in_with_key in Hin. destruct Hin as [[->|Hin] _]; [lia|].
        now apply Hall1. }
      assert (Hle2 : key x1 <= key x2).
      { assert (Hin : In x1 (with_key key (key x1) (x2 :: l2))).
        { rewrite <- Hk. apply in_with_key. split; [now left|reflexivity]. }
        apply in_with_key in Hin. destruct Hin as [[->|Hin] _]; [lia|].
        now apply Hall2. }
      assert (Hhead := Hk (key x1)).
      unfold with_key in Hhead. simpl in Hhead.
      replace (key x2) with (key x1) in Hhead by lia.
      rewrite Nat.eqb_refl in Hhead. injection Hhead as -> Htail.
      f_equal. apply IH; [exact H1|exact H2|].
      intros k. specialize (Hk k). unfold with_key in *. simpl in Hk.
      destruct (key x2 =? k) eqn:E.
      * now injection Hk.
      * exact Hk.
Qed.

Lemma sort_desc_unique (l l' : list A) :
  descending key l' = true ->
  (forall k, with_key key k l' = with_key key k l) ->
  l' = sort_desc key l.
Proof.
  intros Hd Hk. apply descending_unique.
  - exact Hd.
  - apply descending_sort_desc.
  - intros k. now rewrite with_key_sort_desc.
Qed.

Lemma descending_nth (l : list A) (j : nat) (a b : A) :
  descending key l = true ->
  nth_error l j = Some a -> nth_error l (S j) = Some b ->
  key b <= key a.
Proof.
  revert j; induction l as [|x l IH]; intros j Hd Ha Hb.
  - destruct j; discriminate.
  - destruct j as [|j].
    + simpl in Ha. injection Ha as ->.
      apply descending_cons in Hd. destruct Hd as [Hall _].
      apply Hall. simpl in Hb. now apply nth_error_In with (n := 0).
    + apply descending_cons in Hd. destruct Hd as [_ Hd].
      now apply (IH j).
Qed.
End SortFacts.

(** ** Retriever *)

Lemma chunk_score_from (query_words : list str) (chunk_lower : str) (n : nat) :
  fold_left
    (fun score word => if str_in word chunk_lower then score + 1 else score)
    query_words n
  = n + length (filter (fun w => str_in w chunk_lower) query_words).
Proof.
  revert n; induction query_words as [|w ws IH]; intros n; simpl.
  - lia.
  - rewrite IH. destruct (str_in w chunk_lower); simpl; lia.
Qed.

Lemma chunk_score_count (query_words : list str) (chunk_lower : str) :
  chunk_score query_words chunk_lower
  = length (filter (fun w => str_in w chunk_lower) query_words).
Proof. unfold chunk_score. now rewrite chunk_score_from. Qed.

Lemma score_chunks_from (query_words : list str) (index : list entry)
    (acc : list scored) :
  fold_left
    (fun scored_chunks e =>
       let '(doc_name, chunk) := e in
       let chunk_lower := lower chunk in
       let score := chunk_score query_words chunk_lower in
       if 0 <? score
       then scored_chunks ++ [(score, doc_name, chunk)]
       else scored_chunks)
    index acc
  = acc ++ map (scored_entry query_words)
               (filter (fun e => 0 <? chunk_score query_words (lower (snd e)))
                       index).
Proof.
  revert acc; induction index as [|[doc_name chunk] index IH]; intros acc.
  - simpl. now rewrite app_nil_r.
  - cbn [fold_left filter snd]. rewrite IH.
    destruct (0 <? chunk_score query_words (lower chunk)).
    + rewrite <- app_assoc. reflexivity.
    + reflexivity.
Qed.

Lemma score_chunks_eq (query_words : list str) (index : list entry) :
  score_chunks query_words index
  = map (scored_entry query_words)
        (filter (fun e => 0 <? chunk_score query_words (lower (snd e)))
                index).
Proof. unfold score_chunks. now rewrite score_chunks_from. Qed.

Lemma score_chunks_no_words (index : list entry) : score_chunks [] index = [].
Proof.
  rewrite score_chunks_eq.
  induction index as [|e index IH]; [reflexivity|exact IH].
Qed.

Lemma entry_of_scored_entry (query_words : list str) (e : entry) :
  entry_of (scored_entry query_words e) = e.
Proof. now destruct e. Qed.

(** [search_index] is the projection of [top_chunks]; both early returns
    agree with it, since without query words every score is zero. *)
Lemma search_index_top_chunks (query : str) (index : list entry) :
  search_index query index = map entry_of (top_chunks query index).
Proof.
  unfold search_index, top_chunks, query_words_of.
  destruct (lower (strip query)) as [|c q] eqn:Eq.
  - simpl. now rewrite score_chunks_no_words.
  - cbn [truthy negb].
    destruct (significant_words (c :: q)) as [|w ws] eqn:Ew.
    + simpl. now rewrite score_chunks_no_words.
    + cbn [truthy negb]. now rewrite fold_left_snoc.
Qed.

Lemma in_top_chunks (query : str) (index : list entry) (x : scored) :
  In x (top_chunks query index) ->
  exists e, In e index
            /\ 0 < entry_score query e
            /\ x = scored_entry (query_words_of query) e.
Proof.
  unfold top_chunks. intros H. apply in_firstn in H.
  apply in_sort_desc in H. rewrite score_chunks_eq in H.
  apply in_map_iff in H. destruct H as [e [<- He]].
  apply filter_In in He. destruct He as [He Hpos].
  exists e. split; [exact He|]. split; [|reflexivity].
  now apply Nat.ltb_lt in Hpos.
Qed.

Lemma top_chunks_score (query : str) (index : list entry) (x : scored) :
  In x (top_chunks query index) ->
  entry_score query (entry_of x) = score_of x.
Proof.
  intros H. apply in_top_chunks in H. destruct H as [e [_ [_ ->]]].
  now rewrite entry_of_scored_entry.
Qed.

Lemma with_key_map {A B : Type} (key : B -> nat) (key' : A -> nat)
    (f : A -> B) (k : nat) (l : list A) :
  (forall x, In x l -> key (f x) = key' x) ->
  with_key key k (map f l) = map f (with_key key' k l).
Proof.
  induction l as [|x l IH]; intros H; [reflexivity|].
  unfold with_key in *. simpl.
  rewrite (H x) by now left.
  rewrite IH by (intros y Hy; apply H; now right).
  now destruct (key' x =? k).
Qed.

Lemma descending_map {A B : Type} (key : B -> nat) (key' : A -> nat)
    (f : A -> B) (l : list A) :
  (forall x, In x l -> key (f x) = key' x) ->
  descending key' l = true -> descending key (map f l) = true.
Proof.
  induction l as [|x l IH]; intros H Hd; [reflexivity|].
  apply descending_cons in Hd. destruct Hd as [Hall Hd].
  simpl map. apply descending_cons. split.
  - intros y Hy. apply in_map_iff in Hy. destruct Hy as [z [<- Hz]].
    rewrite (H x) by now left. rewrite (H z) by now right.
    now apply Hall.
  - apply IH; [|exact Hd]. intros y Hy. apply H. now right.
Qed.

Lemma filter_implied {A : Type} (p q : A -> bool) (l : list A) :
  (forall x, p x = true -> q x = true) ->
  filter p (filter q l) = filter p l.
Proof.
  intros H. induction l as [|x l IH]; [reflexivity|].
  simpl. destruct (q x) eqn:Eq; simpl.
  - now rewrite IH.
  - destruct (p x) eqn:Ep; [|exact IH].
    apply H in Ep. congruence.
Qed.

Lemma filter_excluded {A : Type} (p q : A -> bool) (l : list A) :
  (forall x, p x = true -> q x = false) ->
  filter p (filter q l) = [].
Proof.
  intros H. induction l as [|x l IH]; [reflexivity|].
  simpl. destruct (q x) eqn:Eq; simpl; [|exact IH].
  destruct (p x) eqn:Ep; [|exact IH].
  apply H in Ep. congruence.
Qed.

Lemma search_index_descending (query : str) (index : list entry) :
  descending (entry_score query) (search_index query index) = true.
Proof.
  rewrite search_index_top_chunks.
  apply descending_map with (key' := score_of).
  - intros x Hx. now apply top_chunks_score with (index := index).
  - unfold top_chunks. apply descending_firstn, descending_sort_desc.
Qed.

Lemma nodup_filter_length (p : str -> bool) (l : list str) :
  length (filter p (nodup str_eq_dec l)) <= length (filter p l).
Proof.
  induction l as [|w l IH]; [simpl; lia|].
  simpl. destruct (in_dec str_eq_dec w l); simpl; destruct (p w); simpl; lia.
Qed.

(** C1, amended.  The score [search_index] gives a chunk is the number of
    entries of the significant query word list (the words of the trimmed,
    lower-cased query that are longer than 2 characters, kept with their
    repetitions) that occur as a substring of the lower-cased chunk text.
    A word counts once per place it has in the query, however often it
    occurs in the chunk; the score is never below the number of distinct
    matching words and equals it when no significant word is repeated in
    the query.  Chunks of score zero are left out, and the result is the
    first [MAX_CONTEXT_CHUNKS] of the scored chunks sorted by score. *)
Theorem search_index_score_counts_query_words
    (query : str) (index : list entry) :
  search_index query index
  = map entry_of
        (firstn MAX_CONTEXT_CHUNKS
           (sort_desc score_of
              (map (fun e => (entry_score query e, fst e, snd e))
                   (filter (fun e => 0 <? entry_score query e) index))))
  /\ (forall e,
        entry_score query e
        = length (filter (fun w => str_in w (lower (snd e)))
                         (filter (fun w => 2 <? length w)
                                 (str_split (lower (strip query))))))
  /\ (forall e,
        spec_distinct_score (query_words_of query) (lower (snd e))
        <= entry_score query e)
  /\ (forall e,
        NoDup (query_words_of query) ->
        entry_score query e
        = spec_distinct_score (query_words_of query) (lower (snd e))).
Proof.
  split; [|split; [|split]].
  - rewrite search_index_top_chunks. unfold top_chunks.
    now rewrite score_chunks_eq.
  - intros e. unfold entry_score. now rewrite chunk_score_count.
  - intros e. unfold entry_score, spec_distinct_score.
    rewrite chunk_score_count. apply nodup_filter_length.
  - intros e Hnd. unfold entry_score, spec_distinct_score.
    rewrite chunk_score_count. now rewrite (nodup_fixed_point str_eq_dec Hnd).
Qed.

Lemma search_index_score_counts_query_words_witness :
  entry_score (lit "exam fees") (lit "Policy.pdf", lit "Exam fees; EXAM dates")
  = spec_distinct_score (query_words_of (lit "exam fees"))
      (lower (lit "Exam fees; EXAM dates")).
Proof.
  apply (search_index_score_counts_query_words (lit "exam fees") []).
  vm_compute. repeat constructor; simpl; intuition discriminate.
Defined.

(** C1 as first stated fails: a significant word written three times in the
    query adds 3 to the score of a chunk that contains it, where the number
    of distinct matching words is 1; the chunk then outranks one that
    matches two different words. *)
Lemma repeated_query_word_scores_again :
  entry_score (lit "aaa aaa aaa bbb ccc") (lit "d2", lit "AAA") = 3
  /\ spec_distinct_score (query_words_of (lit "aaa aaa aaa bbb ccc"))
       (lower (lit "AAA")) = 1
  /\ search_index (lit "aaa aaa aaa bbb ccc")
       [(lit "d1", lit "bbb ccc"); (lit "d2", lit "AAA")]
     = [(lit "d2", lit "AAA"); (lit "d1", lit "bbb ccc")].
Proof. repeat split; vm_compute; reflexivity. Qed.

(** C8.  The scores of the chunks [search_index] returns never increase
    along the result: the chunk at position j+1 scores at most what the
    chunk at position j scores. *)
Theorem search_index_scores_non_increasing
    (query : str) (index : list entry) (j : nat) (a b : entry) :
  nth_error (search_index query index) j = Some a ->
  nth_error (search_index query index) (S j) = Some b ->
  entry_score query b <= entry_score query a.
Proof.
  apply descending_nth. apply search_index_descending.
Qed.

Lemma search_index_scores_non_increasing_witness :
  entry_score (lit "exam fees") (lit "b.pdf", lit "fees only")
  <= entry_score (lit "exam fees") (lit "a.pdf", lit "exam fees").
Proof.
  apply (search_index_scores_non_increasing (lit "exam fees")
           [(lit "b.pdf", lit "fees only"); (lit "a.pdf", lit "exam fees")]
           0);
    vm_compute; reflexivity.
Defined.

(** C4.  The sort is stable: for every score, the returned chunks with that
    score are, in the same order, the first ones among the index entries
    with that score.  So of two chunks with the same positive score the one
    earlier in the index comes earlier in the result, and truncation drops
    only the later ones. *)
Theorem search_index_stable (query : str) (index : list entry) (s : nat) :
  exists n,
    with_key (entry_score query) s (search_index query index)
    = firstn n (with_key (entry_score query) s index).
Proof.
  rewrite search_index_top_chunks.
  rewrite (with_key_map (entry_score query) score_of entry_of)
    by (intros x Hx; now apply top_chunks_score with (index := index)).
  unfold top_chunks.
  destruct (filter_firstn (fun x => score_of x =? s) MAX_CONTEXT_CHUNKS
              (sort_desc score_of
                 (score_chunks (query_words_of query) index))) as [m Hm].
  unfold with_key at 1. rewrite Hm.
  fold (with_key score_of s
          (sort_desc score_of (score_chunks (query_words_of query) index))).
  rewrite with_key_sort_desc, score_chunks_eq.
  rewrite (with_key_map score_of (entry_score query)
             (scored_entry (query_words_of query))) by reflexivity.
  rewrite <- firstn_map, map_map.
  rewrite (map_ext _ (fun e => e)) by (apply entry_of_scored_entry).
  rewrite map_id.
  destruct s as [|s].
  - exists 0. unfold with_key. rewrite filter_excluded; [now rewrite firstn_nil|].
    intros e He. apply Nat.eqb_eq in He. unfold entry_score in He.
    now rewrite He.
  - exists m. unfold with_key. rewrite filter_implied; [reflexivity|].
    intros e He. apply Nat.eqb_eq in He. unfold entry_score in He.
    now rewrite He.
Qed.

(** C10.  Every pair [search_index] returns is an entry of the index, and
    the lower-cased text of its chunk contains, as a substring, a word of
    the trimmed lower-cased query that is longer than 2 characters. *)
Theorem search_index_sound (query : str) (index : list entry) (e : entry) :
  In e (search_index query index) ->
  In e index
  /\ exists w,
       In w (str_split (lower (strip query)))
       /\ 2 < length w
       /\ exists a b, lower (snd e) = a ++ w ++ b.
Proof.
  rewrite search_index_top_chunks. intros H.
  apply in_map_iff in H. destruct H as [x [<- Hx]].
  apply in_top_chunks in Hx. destruct Hx as [e [He [Hpos ->]]].
  rewrite entry_of_scored_entry. split; [exact He|].
  unfold entry_score in Hpos. rewrite chunk_score_count in Hpos.
  destruct (filter (fun w => str_in w (lower (snd e))) (query_words_of query))
    as [|w ws] eqn:Ef; [simpl in Hpos; lia|].
  assert (Hw : In w (filter (fun w => str_in w (lower (snd e)))
                            (query_words_of query)))
    by (rewrite Ef; now left).
  apply filter_In in Hw. destruct Hw as [Hw Hin].
  unfold query_words_of, significant_words in Hw.
  apply filter_In in Hw. destruct Hw as [Hw Hlen].
  exists w. split; [exact Hw|]. split; [now apply Nat.ltb_lt in Hlen|].
  now apply str_in_spec.
Qed.

Lemma search_index_sound_witness :
  In (lit "a.pdf", lit "Exam fees")
     [(lit "b.pdf", lit "nothing"); (lit "a.pdf", lit "Exam fees")]
  /\ exists w,
       In w (str_split (lower (strip (lit " exam "))))
       /\ 2 < length w
       /\ exists a b, lower (snd (lit "a.pdf", lit "Exam fees")) = a ++ w ++ b.
Proof.
  apply (search_index_sound (lit " exam ")
           [(lit "b.pdf", lit "nothing"); (lit "a.pdf", lit "Exam fees")]).
  vm_compute. left. reflexivity.
Defined.

(** ** Query normalisation *)

Lemma isspace_lower_char (c : ascii) : isspace (lower_char c) = isspace c.
Proof. destruct c as [[] [] [] [] [] [] [] []]; reflexivity. Qed.

Lemma lower_rev (s : str) : rev (lower s) = lower (rev s).
Proof. unfold lower. symmetry. apply map_rev. Qed.

Lemma split_from_lower (cur s : str) :
  split_from (lower cur) (lower s) = map lower (split_from cur s).
Proof.
  revert cur; induction s as [|c s IH]; intros cur.
  - destruct cur as [|d cur]; [reflexivity|].
    change (split_from (lower (d :: cur)) (lower []))
      with [rev (lower (d :: cur))].
    now rewrite lower_rev.
  - change (split_from (lower cur) (lower (c :: s)))
      with (if isspace (lower_char c)
            then match lower cur with
                 | [] => split_from [] (lower s)
                 | _ :: _ => rev (lower cur) :: split_from [] (lower s)
                 end
            else split_from (lower (c :: cur)) (lower s)).
    rewrite isspace_lower_char. cbn [split_from].
    destruct (isspace c).
    + destruct cur as [|d cur].
      * apply (IH []).
      * change (rev (lower (d :: cur)) :: split_from [] (lower s)
                = lower (rev (d :: cur)) :: map lower (split_from [] s)).
        rewrite lower_rev. f_equal. apply (IH []).
    + apply (IH (c :: cur)).
Qed.

Lemma split_from_lstrip (s : str) :
  split_from [] (lstrip s) = split_from [] s.
Proof.
  induction s as [|c s IH]; [reflexivity|].
  simpl. destruct (isspace c) eqn:E; [exact IH|].
  simpl. now rewrite E.
Qed.

Lemma lstrip_decompose (s : str) :
  exists ws, forallb isspace ws = true /\ s = ws ++ lstrip s.
Proof.
  induction s as [|c s [ws [Hws Hs]]].
  - now exists [].
  - simpl. destruct (isspace c) eqn:E.
    + exists (c :: ws). simpl. rewrite E, Hws. split; [reflexivity|].
      now rewrite <- Hs.
    + now exists [].
Qed.

Lemma rstrip_decompose (s : str) :
  exists ws, forallb isspace ws = true /\ s = rstrip s ++ ws.
Proof.
  destruct (lstrip_decompose (rev s)) as [ws [Hws Hs]].
  exists (rev ws). split.
  - rewrite forallb_forall in *. intros c Hc. apply Hws.
    now apply in_rev.
  - unfold rstrip. rewrite <- rev_app_distr, <- Hs. now rewrite rev_involutive.
Qed.

Lemma split_from_spaces (cur ws : str) :
  forallb isspace ws = true -> split_from cur ws = split_from cur [].
Proof.
  revert cur; induction ws as [|c ws IH]; intros cur H; [reflexivity|].
  simpl in H. apply andb_true_iff in H. destruct H as [Hc Hws].
  simpl. rewrite Hc. destruct cur as [|d cur].
  - now rewrite (IH [] Hws).
  - now rewrite (IH [] Hws).
Qed.

Lemma split_from_trailing_spaces (cur s ws : str) :
  forallb isspace ws = true -> split_from cur (s ++ ws) = split_from cur s.
Proof.
  intros Hws. revert cur; induction s as [|c s IH]; intros cur.
  - simpl app. now apply split_from_spaces.
  - simpl. destruct (isspace c).
    + destruct cur; now rewrite IH.
    + apply IH.
Qed.

(** Trimming and lower-casing the query changes no word boundary. *)
Lemma str_split_normalised (query : str) :
  str_split (lower (strip query)) = map lower (str_split query).
Proof.
  unfold str_split.
  transitivity (map lower (split_from [] (strip query)));
    [apply (split_from_lower [] (strip query))|].
  f_equal. unfold strip.
  destruct (rstrip_decompose (lstrip query)) as [ws [Hws Hq]].
  transitivity (split_from [] (rstrip (lstrip query) ++ ws)).
  - symmetry. now apply split_from_trailing_spaces.
  - rewrite <- Hq. apply split_from_lstrip.
Qed.

Lemma strip_spaces (s : str) : forallb isspace s = true -> strip s = [].
Proof.
  intros H. assert (E : lstrip s = []).
  { induction s as [|c s IH]; [reflexivity|].
    simpl in H. apply andb_true_iff in H. destruct H as [Hc Hs].
    simpl. rewrite Hc. now apply IH. }
  unfold strip. now rewrite E.
Qed.

(** C7.  [search_index] is a total function to lists, and it returns the
    empty list when the trimmed query is empty and when no whitespace
    separated word of the trimmed, lower-cased query is longer than 2
    characters; in particular for the empty query and for a query of two
    spaces. *)
Theorem search_index_empty_query (index : list entry) :
  (forall query, strip query = [] -> search_index query index = [])
  /\ (forall query,
        (forall w, In w (str_split (lower (strip query))) -> length w <= 2) ->
        search_index query index = [])
  /\ search_index (lit "") index = []
  /\ search_index (lit "  ") index = [].
Proof.
  assert (Hempty : forall query,
             strip query = [] -> search_index query index = []).
  { intros query H. unfold search_index. now rewrite H. }
  split; [exact Hempty|]. split; [|split].
  - intros query Hshort. rewrite search_index_top_chunks.
    unfold top_chunks, query_words_of, significant_words.
    replace (filter (fun w => 2 <? length w)
                    (str_split (lower (strip query))))
      with (@nil str).
    + now rewrite score_chunks_no_words.
    + symmetry.
      induction (str_split (lower (strip query))) as [|w ws IH];
        [reflexivity|].
      simpl.
      assert (Hw : length w <= 2) by (apply Hshort; now left).
      apply Nat.ltb_ge in Hw. rewrite Hw.
      apply IH. intros v Hv. apply Hshort. now right.
  - apply Hempty. reflexivity.
  - apply Hempty. reflexivity.
Qed.

Lemma search_index_empty_query_witness :
  search_index (lit "   ") [(lit "a.pdf", lit "is it so")] = []
  /\ search_index (lit "Is IT so") [(lit "a.pdf", lit "is it so")] = [].
Proof.
  destruct (search_index_empty_query [(lit "a.pdf", lit "is it so")])
    as [Hblank [Hshort _]].
  split.
  - apply Hblank. reflexivity.
  - apply Hshort. vm_compute. intros w [<-|[<-|[<-|[]]]]; simpl; lia.
Defined.

(** ** Answer generator *)

Lemma count_posts_app (l1 l2 : list event) :
  count_posts (l1 ++ l2) = count_posts l1 + count_posts l2.
Proof. unfold count_posts. now rewrite filter_app, length_app. Qed.

(** A call of the generation client posts one request, whatever comes back. *)
Lemma call_ollama_llm_one_post
    (backend : list event -> request -> reply)
    (question context : str) (log : list event) :
  exists result r,
    call_ollama_llm backend question context log = (result, log ++ [Post r]).
Proof.
  unfold call_ollama_llm, bind, requests_post.
  destruct (backend log _) as [|status b].
  - eexists. eexists. reflexivity.
  - unfold raise_for_status. cbn [fst].
    destruct ((400 <=? status) && (status <? 600)).
    + eexists. eexists. reflexivity.
    + unfold ret, message_content. cbn [snd].
      destruct b; eexists; eexists; reflexivity.
Qed.

Lemma join_nonempty (sep p : str) (rest : list str) :
  p <> [] -> join sep (p :: rest) <> [].
Proof.
  intros Hp. destruct p as [|c p]; [contradiction|].
  destruct rest; simpl; discriminate.
Qed.

Lemma build_strict_answer_blocks
    (textwrap_fill : str -> nat -> str) (matches : list entry) :
  matches <> [] ->
  build_strict_answer_from_chunks textwrap_fill matches
  = join BLOCK_SEPARATOR (map (excerpt_block textwrap_fill) matches).
Proof.
  intros Hne. unfold build_strict_answer_from_chunks.
  destruct matches as [|m matches]; [contradiction|].
  cbn [truthy negb]. now rewrite fold_left_snoc.
Qed.

(** C6.  When [search_index] finds nothing, [generate_answer] returns the
    fixed message and adds no event: the backend is not contacted.  When
    there is a match, [generate_answer] returns an answer (it raises
    nothing) and the events it adds hold exactly one request to the
    backend, whether the backend answers or fails. *)
Theorem generate_answer_backend_attempts
    (textwrap_fill : str -> nat -> str)
    (backend : list event -> request -> reply)
    (query : str) (index : list entry) (use_llm : bool) (log : list event) :
  (search_index query index = [] ->
   generate_answer textwrap_fill backend query index use_llm log
   = (Ret NO_MATCH_MESSAGE, log))
  /\ (search_index query index <> [] ->
      exists answer events,
        generate_answer textwrap_fill backend query index use_llm log
        = (Ret answer, log ++ events)
        /\ count_posts events = 1).
Proof.
  unfold generate_answer. split.
  - intros ->. reflexivity.
  - intros Hne.
    destruct (search_index query index) as [|m matches] eqn:E;
      [contradiction|].
    cbn [truthy negb]. unfold try_except.
    destruct (call_ollama_llm_one_post backend query
                (join CONTEXT_SEPARATOR
                   (fold_left (fun pieces m0 => pieces ++ [context_piece m0])
                      (m :: matches) [])) log) as [result [r Hcall]].
    rewrite Hcall. destruct result as [answer|e].
    + exists answer, [Post r]. split; reflexivity.
    + exists (build_strict_answer_from_chunks textwrap_fill (m :: matches)),
        [Post r; Warning e].
      split; [|reflexivity].
      unfold bind, emit, ret. now rewrite <- app_assoc.
Qed.

Lemma generate_answer_backend_attempts_witness :
  generate_answer (fun s _ => s) (fun _ _ => Response 200 (Content (lit "ok")))
    (lit "zebra") [(lit "a.pdf", lit "Exam fees")] true []
  = (Ret NO_MATCH_MESSAGE, [])
  /\ exists answer events,
       generate_answer (fun s _ => s)
         (fun _ _ => Response 200 (Content (lit "ok")))
         (lit "exam") [(lit "a.pdf", lit "Exam fees")] true []
       = (Ret answer, [] ++ events)
       /\ count_posts events = 1.
Proof.
  split.
  - apply (generate_answer_backend_attempts (fun s _ => s)
             (fun _ _ => Response 200 (Content (lit "ok")))
             (lit "zebra") [(lit "a.pdf", lit "Exam fees")] true []).
    vm_compute. reflexivity.
  - apply (generate_answer_backend_attempts (fun s _ => s)
             (fun _ _ => Response 200 (Content (lit "ok")))
             (lit "exam") [(lit "a.pdf", lit "Exam fees")] true []).
    vm_compute. discriminate.
Defined.

(** * Further properties of the pipeline *)

(** ** Trimming *)

Lemma lstrip_fixed (c : ascii) (s : str) :
  isspace c = false -> lstrip (c :: s) = c :: s.
Proof. intros H. simpl. now rewrite H. Qed.

Lemma lstrip_head (s : str) (c : ascii) (r : str) :
  lstrip s = c :: r -> isspace c = false.
Proof.
  induction s as [|d s IH]; [discriminate|].
  simpl. destruct (isspace d) eqn:E; [exact IH|].
  intros H. injection H as <- _. exact E.
Qed.

Lemma lstrip_idempotent (s : str) : lstrip (lstrip s) = lstrip s.
Proof.
  destruct (lstrip s) as [|c r] eqn:E; [reflexivity|].
  apply lstrip_fixed. now apply lstrip_head with (s := s) (r := r).
Qed.

(** [strip] removes a run of whitespace at each end and nothing else. *)
Lemma strip_decompose (s : str) :
  exists a b,
    forallb isspace a = true /\ forallb isspace b = true
    /\ s = a ++ strip s ++ b.
Proof.
  destruct (lstrip_decompose s) as [a [Ha Hs]].
  destruct (rstrip_decompose (lstrip s)) as [b [Hb Hl]].
  exists a, b. split; [exact Ha|]. split; [exact Hb|].
  unfold strip. now rewrite <- Hl.
Qed.

Lemma strip_idempotent (s : str) : strip (strip s) = strip s.
Proof.
  unfold strip at 1 2.
  assert (Hl : lstrip (rstrip (lstrip s)) = rstrip (lstrip s)).
  { destruct (rstrip (lstrip s)) as [|c r] eqn:Er; [reflexivity|].
    apply lstrip_fixed.
    destruct (rstrip_decompose (lstrip s)) as [ws [Hws Hd]].
    rewrite Er in Hd.
    destruct (lstrip s) as [|d t] eqn:El; [destruct ws; discriminate|].
    simpl in Hd. injection Hd as -> _.
    now apply lstrip_head with (s := s) (r := t). }
  unfold strip. rewrite Hl. unfold rstrip.
  now rewrite rev_involutive, lstrip_idempotent.
Qed.

Lemma filter_nonspace_spaces (ws : str) :
  forallb isspace ws = true -> filter nonspace ws = [].
Proof.
  induction ws as [|c ws IH]; [reflexivity|].
  simpl. intros H. apply andb_true_iff in H. destruct H as [Hc Hws].
  unfold nonspace at 1. rewrite Hc. now apply IH.
Qed.

Lemma filter_nonspace_strip (s : str) :
  filter nonspace (strip s) = filter nonspace s.
Proof.
  destruct (strip_decompose s) as [a [b [Ha [Hb Hs]]]].
  rewrite Hs at 2. rewrite !filter_app.
  rewrite (filter_nonspace_spaces a Ha), (filter_nonspace_spaces b Hb).
  now rewrite app_nil_r.
Qed.

Lemma strip_empty_iff (s : str) :
  strip s = [] <-> forallb isspace s = true.
Proof.
  split; [|apply strip_spaces].
  intros H. destruct (strip_decompose s) as [a [b [Ha [Hb Hs]]]].
  rewrite H in Hs. rewrite Hs. simpl. rewrite forallb_app.
  now rewrite Ha, Hb.
Qed.

(** ** Chunker: what the segments keep *)

Lemma firstn_plus {A : Type} (a b : nat) (l : list A) :
  firstn (a + b) l = firstn a l ++ firstn b (skipn a l).
Proof.
  revert l; induction a as [|a IH]; intros l; [reflexivity|].
  destruct l as [|x l]; simpl.
  - now rewrite firstn_nil.
  - now rewrite IH.
Qed.

(** The untrimmed segments, put end to end, are a prefix of the text. *)
Lemma concat_slices (text : str) (size n : nat) :
  concat (map (fun i => slice text (i * size) (i * size + size)) (seq 0 n))
  = firstn (n * size) text.
Proof.
  induction n as [|n IH]; [reflexivity|].
  rewrite seq_S, map_app, concat_app, IH. simpl.
  rewrite app_nil_r. unfold slice.
  replace (n * size + size - n * size) with size by lia.
  replace (size + n * size) with (n * size + size) by lia.
  now rewrite firstn_plus.
Qed.

Lemma slice_substring (text : str) (start stop : nat) :
  exists a b, text = a ++ slice text start stop ++ b.
Proof.
  exists (firstn start text), (skipn (stop - start) (skipn start text)).
  unfold slice. now rewrite !firstn_skipn.
Qed.

Lemma segment_substring (text : str) (size i : nat) :
  exists a b, text = a ++ segment text size i ++ b.
Proof.
  destruct (slice_substring text (i * size) (i * size + size))
    as [a [b Hs]].
  destruct (strip_decompose (slice text (i * size) (i * size + size)))
    as [a' [b' [_ [_ Hd]]]].
  exists (a ++ a'), (b' ++ b). unfold segment.
  rewrite Hs at 1. rewrite Hd at 1. now rewrite <- !app_assoc.
Qed.

(** X1.  Chunking loses no visible character: for a positive chunk size
    the non-whitespace characters of the chunks, read in order, are exactly
    the non-whitespace characters of the text. *)
Theorem split_into_chunks_keeps_nonspace (text : str) (size : nat) :
  0 < size ->
  exists chunks,
    split_into_chunks text size = Some chunks
    /\ filter nonspace (concat chunks) = filter nonspace text.
Proof.
  intros Hs. eexists. split; [now apply split_into_chunks_segments|].
  rewrite <- concat_filter_map, map_map.
  rewrite (map_ext _
             (fun i => filter nonspace
                         (slice text (i * size) (i * size + size))))
    by (intros i; apply filter_nonspace_strip).
  rewrite <- (map_map (fun i => slice text (i * size) (i * size + size))
                      (filter nonspace)).
  rewrite concat_filter_map, concat_slices.
  rewrite firstn_all2; [reflexivity|].
  destruct (Nat.le_gt_cases (length text)
              (chunk_count (length text) size * size)) as [H|H]; [exact H|].
  apply (chunk_count_lt (length text) size _ Hs) in H. lia.
Qed.

Lemma split_into_chunks_keeps_nonspace_witness :
  exists chunks,
    split_into_chunks (lit "ab  cd e") 3 = Some chunks
    /\ filter nonspace (concat chunks) = lit "abcde".
Proof.
  destruct (split_into_chunks_keeps_nonspace (lit "ab  cd e") 3)
    as [chunks [Hrun Hkeep]]; [lia|].
  exists chunks. split; [exact Hrun|]. rewrite Hkeep. reflexivity.
Defined.

(** X2.  For a positive chunk size every string the Chunker returns is
    already trimmed (trimming it again changes nothing) and occurs in the
    text as a contiguous substring: chunking never rewrites text. *)
Theorem split_into_chunks_trimmed_substrings (text : str) (size : nat) :
  0 < size ->
  exists chunks,
    split_into_chunks text size = Some chunks
    /\ forall c, In c chunks ->
         strip c = c /\ exists a b, text = a ++ c ++ b.
Proof.
  intros Hs. eexists. split; [now apply split_into_chunks_segments|].
  intros c Hc. apply in_map_iff in Hc. destruct Hc as [i [<- _]]. split.
  - unfold segment. apply strip_idempotent.
  - apply segment_substring.
Qed.

Lemma split_into_chunks_trimmed_substrings_witness :
  exists chunks,
    split_into_chunks (lit "ab  cd e") 3 = Some chunks
    /\ forall c, In c chunks ->
         strip c = c /\ exists a b, lit "ab  cd e" = a ++ c ++ b.
Proof.
  apply (split_into_chunks_trimmed_substrings (lit "ab  cd e") 3). lia.
Defined.

(** X3.  A chunk size of zero never advances the start offset: on a
    non-empty text the loop of [split_into_chunks] does not end, however
    many iterations it is given. *)
Theorem split_loop_zero_size_diverges
    (text : str) (fuel : nat) (chunks : list str) :
  text <> [] -> split_loop fuel text 0 0 chunks = None.
Proof. apply split_loop_zero_size. Qed.

Lemma split_loop_zero_size_diverges_witness :
  split_loop 1000 (lit "a") 0 0 [] = None.
Proof.
  apply (split_loop_zero_size_diverges (lit "a") 1000 []). discriminate.
Defined.

(** ** Indexer: where the entries come from *)

Lemma build_index_flat_map (documents : list (str * str)) :
  build_index documents
  = Some (flat_map
            (fun d => map (pair (fst d))
                          (filter truthy (chunks_of_document (snd d))))
            documents).
Proof. unfold build_index. now rewrite build_index_from. Qed.

(** X4.  Indexing composes: the index of two batches of documents put one
    after the other is the index of the first batch followed by the index
    of the second. *)
Theorem build_index_app (documents1 documents2 : list (str * str)) :
  exists index1 index2,
    build_index documents1 = Some index1
    /\ build_index documents2 = Some index2
    /\ build_index (documents1 ++ documents2) = Some (index1 ++ index2).
Proof.
  eexists. eexists. rewrite !build_index_flat_map.
  split; [reflexivity|]. split; [reflexivity|].
  now rewrite flat_map_app.
Qed.

(** X5.  Every entry of the index comes from a document of the input: its
    name is that document's name and its chunk is a non-empty, trimmed,
    contiguous substring of that document's text, at most [CHUNK_SIZE]
    characters long. *)
Theorem build_index_provenance
    (documents : list (str * str)) (index : list entry)
    (name chunk : str) :
  build_index documents = Some index ->
  In (name, chunk) index ->
  exists text,
    In (name, text) documents
    /\ chunk <> []
    /\ strip chunk = chunk
    /\ length chunk <= CHUNK_SIZE
    /\ exists a b, text = a ++ chunk ++ b.
Proof.
  rewrite build_index_flat_map. intros H Hin. injection H as <-.
  apply in_flat_map in Hin. destruct Hin as [[n text] [Hd Hin]].
  cbn [fst snd] in Hin. apply in_map_iff in Hin.
  destruct Hin as [c [Hc Hin]]. injection Hc as -> ->.
  apply filter_In in Hin. destruct Hin as [Hin Hne].
  rewrite chunks_of_document_segments in Hin.
  apply in_map_iff in Hin. destruct Hin as [i [<- _]].
  exists text. split; [exact Hd|]. split; [|split; [|split]].
  - intros E. rewrite E in Hne. discriminate.
  - unfold segment. apply strip_idempotent.
  - apply segment_length.
  - apply segment_substring.
Qed.

Lemma build_index_provenance_witness :
  exists text,
    In (lit "a.pdf", text)
       [(lit "a.pdf", lit "Exam fees"); (lit "b.pdf", lit "Library")]
    /\ lit "Exam fees" <> []
    /\ strip (lit "Exam fees") = lit "Exam fees"
    /\ length (lit "Exam fees") <= CHUNK_SIZE
    /\ exists a b, text = a ++ lit "Exam fees" ++ b.
Proof.
  apply (build_index_provenance
           [(lit "a.pdf", lit "Exam fees"); (lit "b.pdf", lit "Library")]
           [(lit "a.pdf", lit "Exam fees"); (lit "b.pdf", lit "Library")]).
  - vm_compute. reflexivity.
  - simpl. left. reflexivity.
Defined.

Lemma first_segment_nonempty (text : str) (size : nat) :
  0 < size -> text <> [] -> lstrip text = text ->
  segment text size 0 <> [].
Proof.
  intros Hs Hne Hl. destruct text as [|c r]; [contradiction|].
  assert (Hc : isspace c = false)
    by (now apply lstrip_head with (s := c :: r) (r := r)).
  unfold segment. simpl. unfold slice. rewrite Nat.sub_0_r. simpl.
  destruct size as [|size]; [lia|]. simpl. intros E.
  apply strip_empty_iff in E. simpl in E. rewrite Hc in E. discriminate.
Qed.

Lemma first_chunk_indexed
    (documents : list (str * str)) (name text : str) :
  In (name, text) documents ->
  text <> [] -> lstrip text = text ->
  In (name, strip (slice text 0 CHUNK_SIZE))
     (flat_map
        (fun d => map (pair (fst d))
                      (filter truthy (chunks_of_document (snd d))))
        documents).
Proof.
  intros Hd Hne Hl.
  apply in_flat_map. exists (name, text). split; [exact Hd|].
  cbn [fst snd]. apply in_map. apply filter_In. split.
  - rewrite chunks_of_document_segments.
    change (strip (slice text 0 CHUNK_SIZE))
      with (segment text CHUNK_SIZE 0).
    apply in_map. apply in_seq. split; [lia|]. simpl.
    apply (chunk_count_lt (length text) CHUNK_SIZE 0);
      [unfold CHUNK_SIZE; lia|].
    destruct text; [contradiction|simpl; lia].
  - assert (H := first_segment_nonempty text CHUNK_SIZE
                   ltac:(unfold CHUNK_SIZE; lia) Hne Hl).
    change (strip (slice text 0 CHUNK_SIZE))
      with (segment text CHUNK_SIZE 0).
    destruct (segment text CHUNK_SIZE 0); [contradiction|reflexivity].
Qed.

(** X6.  A document whose text is non-empty and does not begin with
    whitespace (as every loaded document's text) is never lost by
    indexing: the index holds an entry under its name, the first chunk of
    its text. *)
Theorem build_index_keeps_document
    (documents : list (str * str)) (name text : str) :
  In (name, text) documents ->
  text <> [] -> lstrip text = text ->
  exists index,
    build_index documents = Some index
    /\ In (name, strip (slice text 0 CHUNK_SIZE)) index.
Proof.
  intros Hd Hne Hl. eexists. split; [apply build_index_flat_map|].
  now apply first_chunk_indexed.
Qed.

Lemma build_index_keeps_document_witness :
  exists index,
    build_index [(lit "a.pdf", lit "Exam fees"); (lit "b.pdf", lit "Library")]
    = Some index
    /\ In (lit "b.pdf", strip (slice (lit "Library") 0 CHUNK_SIZE)) index.
Proof.
  apply (build_index_keeps_document
           [(lit "a.pdf", lit "Exam fees"); (lit "b.pdf", lit "Library")]).
  - simpl. right. left. reflexivity.
  - discriminate.
  - reflexivity.
Defined.

(** ** Retriever: bound, best matches, query normal form *)

Section SortMore.
Context {A : Type}.
Variable key : A -> nat.

Lemma insert_desc_perm (x : A) (l : list A) :
  Permutation (insert_desc key x l) (x :: l).
Proof.
  induction l as [|y l IH]; [apply Permutation_refl|].
  simpl. destruct (key x <? key y).
  - apply Permutation_trans with (y :: x :: l).
    + now apply perm_skip.
    + apply perm_swap.
  - apply Permutation_refl.
Qed.

Lemma sort_desc_perm (l : list A) : Permutation (sort_desc key l) l.
Proof.
  induction l as [|x l IH]; [apply perm_nil|].
  simpl. apply Permutation_trans with (x :: sort_desc key l).
  - apply insert_desc_perm.
  - now apply perm_skip.
Qed.

Lemma sort_desc_length (l : list A) : length (sort_desc key l) = length l.
Proof. apply Permutation_length, sort_desc_perm. Qed.

Lemma descending_app (l1 l2 : list A) :
  descending key (l1 ++ l2) = true ->
  forall x y, In x l1 -> In y l2 -> key y <= key x.
Proof.
  induction l1 as [|z l1 IH]; intros Hd x y Hx Hy; [destruct Hx|].
  simpl app in Hd. apply descending_cons in Hd. destruct Hd as [Hall Hd].
  destruct Hx as [->|Hx].
  - apply Hall. apply in_or_app. now right.
  - now apply IH.
Qed.

Lemma sort_desc_fixed (l : list A) :
  descending key l = true -> sort_desc key l = l.
Proof.
  intros Hd. symmetry. now apply sort_desc_unique.
Qed.
End SortMore.

Lemma filter_length_perm {A : Type} (p : A -> bool) (l1 l2 : list A) :
  Permutation l1 l2 -> length (filter p l1) = length (filter p l2).
Proof.
  induction 1 as [|x l1 l2 _ IH|x y l|l1 l2 l3 _ IH1 _ IH2]; simpl.
  - reflexivity.
  - destruct (p x); simpl; now rewrite IH.
  - destruct (p x), (p y); reflexivity.
  - now rewrite IH1.
Qed.

Lemma filter_perm {A : Type} (p : A -> bool) (l1 l2 : list A) :
  Permutation l1 l2 -> Permutation (filter p l1) (filter p l2).
Proof.
  induction 1 as [|x l1 l2 _ IH|x y l|l1 l2 l3 _ IH1 _ IH2]; simpl.
  - apply perm_nil.
  - destruct (p x); [now apply perm_skip|exact IH].
  - destruct (p x), (p y); try apply Permutation_refl. apply perm_swap.
  - now apply Permutation_trans with (filter p l2).
Qed.

Lemma score_chunks_ext (ws1 ws2 : list str) (index : list entry) :
  (forall c, chunk_score ws1 c = chunk_score ws2 c) ->
  score_chunks ws1 index = score_chunks ws2 index.
Proof.
  intros H. rewrite !score_chunks_eq.
  rewrite (filter_ext _ (fun e => 0 <? chunk_score ws2 (lower (snd e))))
    by (intros e; now rewrite H).
  apply map_ext. intros e. unfold scored_entry. now rewrite H.
Qed.

Lemma query_words_of_split (query : str) :
  query_words_of query
  = filter (fun w => 2 <? length w) (map lower (str_split query)).
Proof.
  unfold query_words_of, significant_words. now rewrite str_split_normalised.
Qed.

Lemma positive_entries_length (query : str) (index : list entry) :
  length (score_chunks (query_words_of query) index)
  = length (filter (fun e => 0 <? entry_score query e) index).
Proof. rewrite score_chunks_eq. apply length_map. Qed.

Lemma top_chunks_length (query : str) (index : list entry) :
  length (map entry_of (top_chunks query index))
  = Nat.min MAX_CONTEXT_CHUNKS
      (length (score_chunks (query_words_of query) index)).
Proof.
  rewrite length_map. unfold top_chunks.
  now rewrite length_firstn, sort_desc_length.
Qed.

(** X7.  [search_index] returns as many chunks as the index has entries
    of positive score, up to [MAX_CONTEXT_CHUNKS] (4): never more than 4,
    and fewer only when fewer entries match. *)
Theorem search_index_length (query : str) (index : list entry) :
  length (search_index query index)
  = Nat.min MAX_CONTEXT_CHUNKS
      (length (filter (fun e => 0 <? entry_score query e) index)).
Proof.
  rewrite search_index_top_chunks, top_chunks_length.
  now rewrite positive_entries_length.
Qed.

(** X8.  The chunks returned are the best ones: an index entry of
    positive score that is not returned exists only when 4 chunks are
    returned, and then none of those scores less than it. *)
Theorem search_index_returns_best
    (query : str) (index : list entry) (e : entry) :
  In e index -> 0 < entry_score query e ->
  In e (search_index query index)
  \/ (length (search_index query index) = MAX_CONTEXT_CHUNKS
      /\ forall r, In r (search_index query index) ->
           entry_score query e <= entry_score query r).
Proof.
  intros He Hpos. rewrite search_index_top_chunks.
  set (sorted := sort_desc score_of
                   (score_chunks (query_words_of query) index)).
  assert (Hx : In (scored_entry (query_words_of query) e) sorted).
  { apply in_sort_desc. rewrite score_chunks_eq. apply in_map.
    apply filter_In. split; [exact He|]. now apply Nat.ltb_lt. }
  rewrite <- (firstn_skipn MAX_CONTEXT_CHUNKS sorted) in Hx.
  apply in_app_or in Hx. destruct Hx as [Hx|Hx].
  - left. apply in_map_iff.
    exists (scored_entry (query_words_of query) e).
    split; [apply entry_of_scored_entry|exact Hx].
  - right. split.
    + rewrite length_map. unfold top_chunks. fold sorted.
      rewrite length_firstn. apply Nat.min_l.
      destruct (Nat.le_gt_cases MAX_CONTEXT_CHUNKS (length sorted))
        as [H|H]; [exact H|].
      rewrite skipn_all2 in Hx by lia. destruct Hx.
    + intros r Hr. apply in_map_iff in Hr. destruct Hr as [y [<- Hy]].
      rewrite (top_chunks_score query index y Hy).
      assert (Hd : descending score_of
                     (firstn MAX_CONTEXT_CHUNKS sorted
                      ++ skipn MAX_CONTEXT_CHUNKS sorted) = true).
      { rewrite firstn_skipn. apply descending_sort_desc. }
      apply (descending_app score_of _ _ Hd y _ Hy Hx).
Qed.

Lemma search_index_returns_best_witness :
  In (lit "a.pdf", lit "Exam fees")
     (search_index (lit "exam fees")
        [(lit "b.pdf", lit "fees only"); (lit "a.pdf", lit "Exam fees")])
  \/ (length (search_index (lit "exam fees")
                [(lit "b.pdf", lit "fees only");
                 (lit "a.pdf", lit "Exam fees")])
      = MAX_CONTEXT_CHUNKS
      /\ forall r,
           In r (search_index (lit "exam fees")
                   [(lit "b.pdf", lit "fees only");
                    (lit "a.pdf", lit "Exam fees")]) ->
           entry_score (lit "exam fees") (lit "a.pdf", lit "Exam fees")
           <= entry_score (lit "exam fees") r).
Proof.
  apply search_index_returns_best.
  - simpl. right. left. reflexivity.
  - vm_compute. lia.
Defined.

(** X9.  The result depends on the query only through its lower-cased
    words taken as a multiset: two queries whose whitespace-separated
    words agree up to letter case, order and the amount of whitespace
    between them get the same chunks in the same order. *)
Theorem search_index_query_normal_form
    (query1 query2 : str) (index : list entry) :
  Permutation (map lower (str_split query1)) (map lower (str_split query2)) ->
  search_index query1 index = search_index query2 index.
Proof.
  intros Hp. rewrite !search_index_top_chunks. unfold top_chunks.
  rewrite (score_chunks_ext (query_words_of query1) (query_words_of query2));
    [reflexivity|].
  intros c. rewrite !chunk_score_count. apply filter_length_perm.
  rewrite !query_words_of_split. now apply filter_perm.
Qed.

Lemma search_index_query_normal_form_witness :
  search_index (lit "  FEES   exam ") [(lit "a.pdf", lit "Exam fees")]
  = search_index (lit "exam fees") [(lit "a.pdf", lit "Exam fees")].
Proof.
  apply search_index_query_normal_form.
  vm_compute. apply perm_swap.
Defined.

(** X10.  Search invents no repetition: on an index without repeated
    entries no entry is returned twice. *)
Theorem search_index_nodup (query : str) (index : list entry) :
  NoDup index -> NoDup (search_index query index).
Proof.
  intros Hnd. rewrite search_index_top_chunks. unfold top_chunks.
  rewrite <- firstn_map.
  set (projected := map entry_of _).
  assert (Hp : NoDup projected).
  { apply Permutation_NoDup
      with (l := filter (fun e => 0 <? entry_score query e) index);
      [|now apply NoDup_filter].
    apply Permutation_sym. unfold projected.
    apply Permutation_trans
      with (map entry_of (score_chunks (query_words_of query) index)).
    - apply Permutation_map, sort_desc_perm.
    - rewrite score_chunks_eq, map_map.
      rewrite (map_ext _ (fun e => e)) by (apply entry_of_scored_entry).
      rewrite map_id. apply Permutation_refl. }
  rewrite <- (firstn_skipn MAX_CONTEXT_CHUNKS projected) in Hp.
  now apply NoDup_app_remove_r in Hp.
Qed.

Lemma search_index_nodup_witness :
  NoDup (search_index (lit "exam fees")
           [(lit "b.pdf", lit "fees only"); (lit "a.pdf", lit "Exam fees")]).
Proof.
  apply search_index_nodup.
  repeat constructor; simpl; intuition discriminate.
Defined.

(** X11.  Searching the result again with the same query changes
    nothing: the chunks returned all match, are already in rank order and
    are at most 4. *)
Theorem search_index_idempotent (query : str) (index : list entry) :
  search_index query (search_index query index) = search_index query index.
Proof.
  set (result := search_index query index).
  rewrite (search_index_top_chunks query result). unfold top_chunks.
  assert (Hpos : filter (fun e => 0 <? entry_score query e) result = result).
  { apply forallb_filter_id. apply forallb_forall. intros e He.
    unfold result in He. rewrite search_index_top_chunks in He.
    apply in_map_iff in He. destruct He as [x [<- Hx]].
    apply in_top_chunks in Hx. destruct Hx as [e' [_ [Hp ->]]].
    rewrite entry_of_scored_entry. now apply Nat.ltb_lt. }
  rewrite score_chunks_eq.
  change (filter (fun e => 0 <? chunk_score (query_words_of query)
                                   (lower (snd e))) result)
    with (filter (fun e => 0 <? entry_score query e) result).
  rewrite Hpos.
  rewrite sort_desc_fixed.
  - rewrite firstn_all2.
    + rewrite map_map.
      rewrite (map_ext _ (fun e => e)) by (apply entry_of_scored_entry).
      apply map_id.
    + rewrite length_map. unfold result.
      rewrite search_index_top_chunks, top_chunks_length.
      apply Nat.le_min_l.
  - apply descending_map with (key' := entry_score query);
      [reflexivity|apply search_index_descending].
Qed.

(** ** Generation client and answer generator *)

Lemma substring_trans (a b c : str) :
  (exists x y, b = x ++ a ++ y) -> (exists x y, c = x ++ b ++ y) ->
  exists x y, c = x ++ a ++ y.
Proof.
  intros [x1 [y1 ->]] [x2 [y2 ->]]. exists (x2 ++ x1), (y1 ++ y2).
  now rewrite <- !app_assoc.
Qed.

Lemma join_contains (sep p : str) (parts : list str) :
  In p parts -> exists x y, join sep parts = x ++ p ++ y.
Proof.
  induction parts as [|q parts IH]; intros Hin; [destruct Hin|].
  destruct parts as [|q' parts].
  - destruct Hin as [->|[]]. exists [], []. simpl. now rewrite app_nil_r.
  - change (join sep (q :: q' :: parts))
      with (q ++ sep ++ join sep (q' :: parts)).
    destruct Hin as [->|Hin].
    + exists [], (sep ++ join sep (q' :: parts)). reflexivity.
    + destruct (IH Hin) as [x [y Hj]]. rewrite Hj.
      exists (q ++ sep ++ x), y. now rewrite <- !app_assoc.
Qed.

Lemma context_text_contains (matches : list entry) (m : entry) :
  In m matches ->
  (exists x y, context_text_of matches = x ++ fst m ++ y)
  /\ (exists x y, context_text_of matches = x ++ snd m ++ y).
Proof.
  intros Hin.
  assert (Hp : exists x y,
             context_text_of matches = x ++ context_piece m ++ y).
  { unfold context_text_of. apply join_contains. now apply in_map. }
  destruct m as [doc_name chunk]. cbn [fst snd]. split.
  - apply substring_trans with (b := context_piece (doc_name, chunk));
      [|exact Hp].
    exists (lit "Document: "), (NL ++ chunk). reflexivity.
  - apply substring_trans with (b := context_piece (doc_name, chunk));
      [|exact Hp].
    exists (lit "Document: " ++ doc_name ++ NL), []. unfold context_piece.
    now rewrite app_nil_r, <- !app_assoc.
Qed.

Lemma user_prompt_contains (question context : str) :
  (exists x y, user_prompt question context = x ++ question ++ y)
  /\ (exists x y, user_prompt question context = x ++ context ++ y).
Proof.
  unfold user_prompt. split.
  - eexists (lit "QUESTION:" ++ NL), _. rewrite <- !app_assoc. reflexivity.
  - eexists (lit "QUESTION:" ++ NL ++ question ++ NL ++ NL
             ++ lit "CONTEXT (from AIU PDFs):" ++ NL), _.
    rewrite <- !app_assoc. reflexivity.
Qed.

Lemma generate_answer_unfold
    (textwrap_fill : str -> nat -> str)
    (backend : list event -> request -> reply)
    (query : str) (index : list entry) (use_llm : bool) (log : list event) :
  search_index query index <> [] ->
  generate_answer textwrap_fill backend query index use_llm log
  = try_except
      (call_ollama_llm backend query
         (context_text_of (search_index query index)))
      (fun e =>
         _ <- emit (Warning e) ;;
         ret (build_strict_answer_from_chunks textwrap_fill
                (search_index query index)))
      log.
Proof.
  intros Hne. unfold generate_answer, context_text_of.
  destruct (search_index query index) as [|m matches]; [contradiction|].
  cbn [truthy negb]. now rewrite fold_left_snoc.
Qed.

Lemma call_ollama_llm_result
    (backend : list event -> request -> reply)
    (question context : str) (log : list event) :
  call_ollama_llm backend question context log
  = (match backend log (chat_request question context) with
     | NoReply => Raise ConnectionError
     | Response status b =>
         if (400 <=? status) && (status <? 600)
         then Raise (HTTPError status)
         else match b with
              | Malformed => Raise JSONDecodeError
              | MissingContent => Raise KeyError
              | Content text => Ret text
              end
     end,
     log ++ [Post (chat_request question context)]).
Proof.
  unfold call_ollama_llm, bind, requests_post.
  change {| url := OLLAMA_URL;
            json := {| model := OLLAMA_MODEL;
                       messages := [(lit "system", system_prompt);
                                    (lit "user",
                                     user_prompt question context)];
                       stream := false |};
            timeout := 120 |}
    with (chat_request question context).
  destruct (backend log (chat_request question context)) as [|status b];
    [reflexivity|].
  unfold raise_for_status. cbn [fst].
  destruct ((400 <=? status) && (status <? 600)); [reflexivity|].
  unfold ret, message_content. cbn [snd]. now destruct b.
Qed.

Lemma status_ok_iff (status : nat) :
  (400 <=? status) && (status <? 600) = false
  <-> status < 400 \/ 600 <= status.
Proof.
  rewrite andb_false_iff, Nat.leb_gt, Nat.ltb_ge. reflexivity.
Qed.

(** C2, amended.  On a query with at least one match [generate_answer]
    returns a string and raises nothing.  When the call of the generation
    backend raises, the answer is non-empty: one block per match, in the
    order of the matches, each made of the header naming the document and
    the chunk text passed through [textwrap.fill] with width 90, the blocks
    joined by the separator line; one warning is shown.  When the backend
    answers, the answer is the backend's message content as it is, so it
    is empty when that content is empty. *)
Theorem generate_answer_fallback
    (textwrap_fill : str -> nat -> str)
    (backend : list event -> request -> reply)
    (query : str) (index : list entry) (use_llm : bool) (log : list event) :
  search_index query index <> [] ->
  (forall e log',
      call_ollama_llm backend query
        (context_text_of (search_index query index)) log
      = (Raise e, log') ->
      exists answer,
        generate_answer textwrap_fill backend query index use_llm log
        = (Ret answer, log' ++ [Warning e])
        /\ answer <> []
        /\ answer
           = join (NL ++ NL ++ lit "---" ++ NL ++ NL)
               (map (fun m => lit "From **" ++ fst m ++ lit "**:" ++ NL ++ NL
                              ++ textwrap_fill (snd m) 90)
                    (search_index query index)))
  /\ (forall text log',
        call_ollama_llm backend query
          (context_text_of (search_index query index)) log
        = (Ret text, log') ->
        generate_answer textwrap_fill backend query index use_llm log
        = (Ret text, log')).
Proof.
  intros Hne. rewrite generate_answer_unfold by exact Hne.
  unfold try_except. split.
  - intros e log' Hcall. rewrite Hcall.
    exists (build_strict_answer_from_chunks textwrap_fill
              (search_index query index)).
    split; [reflexivity|].
    rewrite build_strict_answer_blocks by exact Hne.
    assert (Hblock : forall x,
               excerpt_block textwrap_fill x
               = lit "From **" ++ fst x ++ lit "**:" ++ NL ++ NL
                 ++ textwrap_fill (snd x) 90).
    { intros [d c]. reflexivity. }
    split.
    + destruct (search_index query index) as [|m matches];
        [contradiction|].
      cbn [map]. apply join_nonempty. rewrite Hblock. discriminate.
    + unfold BLOCK_SEPARATOR. f_equal. apply map_ext. exact Hblock.
  - intros text log' Hcall. now rewrite Hcall.
Qed.

Lemma generate_answer_fallback_witness :
  exists answer log',
    generate_answer (fun s _ => s) (fun _ _ => Response 500 Malformed)
      (lit "attendance policy")
      [(lit "Policy.pdf", lit "Attendance is required.")] true []
    = (Ret answer, log' ++ [Warning (HTTPError 500)])
    /\ answer <> [].
Proof.
  destruct (generate_answer_fallback (fun s _ => s)
              (fun _ _ => Response 500 Malformed)
              (lit "attendance policy")
              [(lit "Policy.pdf", lit "Attendance is required.")] true [])
    as [Hfail _]; [vm_compute; discriminate|].
  destruct (Hfail (HTTPError 500)
              [Post (chat_request (lit "attendance policy")
                       (context_text_of
                          (search_index (lit "attendance policy")
                             [(lit "Policy.pdf",
                               lit "Attendance is required.")])))]
              eq_refl)
    as [answer [Hrun [Hne _]]].
  exists answer. eexists. split; [exact Hrun|exact Hne].
Defined.

(** C2 as first stated fails: with a match, a backend that answers with
    status 200 and an empty message content makes [generate_answer] return
    the empty string. *)
Lemma generate_answer_empty_backend_content :
  search_index (lit "exam") [(lit "a.pdf", lit "Exam fees")] <> []
  /\ fst (generate_answer (fun s _ => s)
            (fun _ _ => Response 200 (Content []))
            (lit "exam") [(lit "a.pdf", lit "Exam fees")] true [])
     = Ret [].
Proof. split; [vm_compute; discriminate|vm_compute; reflexivity]. Qed.

(** X12.  Whatever the backend does, a call of the generation client
    adds exactly the one request to the log.  It returns a text exactly
    when the backend answers that request with a status outside 400..599
    and a body holding a message content, and the text is that content;
    an error status makes the call fail even if the body holds a
    content. *)
Theorem call_ollama_llm_returns_iff
    (backend : list event -> request -> reply)
    (question context : str) (log : list event) :
  exists result,
    call_ollama_llm backend question context log
    = (result, log ++ [Post (chat_request question context)])
    /\ forall text,
         result = Ret text
         <-> exists status,
               backend log (chat_request question context)
               = Response status (Content text)
               /\ (status < 400 \/ 600 <= status).
Proof.
  rewrite call_ollama_llm_result. eexists. split; [reflexivity|].
  intros text. split.
  - destruct (backend log (chat_request question context)) as [|status b];
      [intros Hres; discriminate Hres|].
    destruct ((400 <=? status) && (status <? 600)) eqn:Es;
      [intros Hres; discriminate Hres|].
    destruct b as [| |content]; intros Hres; try discriminate Hres.
    assert (E : content = text) by congruence. subst content.
    exists status. split; [reflexivity|]. now apply status_ok_iff.
  - intros [status [Hb Hs]]. rewrite Hb.
    apply status_ok_iff in Hs. now rewrite Hs.
Qed.

Lemma call_ollama_llm_returns_iff_witness :
  exists result,
    call_ollama_llm (fun _ _ => Response 404 (Content (lit "gone")))
      (lit "fees?") (lit "ctx") []
    = (result, [] ++ [Post (chat_request (lit "fees?") (lit "ctx"))])
    /\ result <> Ret (lit "gone").
Proof.
  destruct (call_ollama_llm_returns_iff
              (fun _ _ => Response 404 (Content (lit "gone")))
              (lit "fees?") (lit "ctx") []) as [result [Hrun Hiff]].
  exists result. split; [exact Hrun|].
  intros Hres. apply Hiff in Hres. destruct Hres as [status [Hb Hs]].
  assert (status = 404) by congruence. lia.
Defined.

(** X13.  When there is a match and the backend answers the request with
    a status outside 400..599 and a message content, [generate_answer]
    returns that content unchanged, after the one request and without a
    warning. *)
Theorem generate_answer_success_verbatim
    (textwrap_fill : str -> nat -> str)
    (backend : list event -> request -> reply)
    (query : str) (index : list entry) (use_llm : bool) (log : list event)
    (status : nat) (text : str) :
  search_index query index <> [] ->
  backend log
    (chat_request query (context_text_of (search_index query index)))
  = Response status (Content text) ->
  status < 400 \/ 600 <= status ->
  generate_answer textwrap_fill backend query index use_llm log
  = (Ret text,
     log ++ [Post (chat_request query
                     (context_text_of (search_index query index)))]).
Proof.
  intros Hne Hb Hs. rewrite generate_answer_unfold by exact Hne.
  unfold try_except. rewrite call_ollama_llm_result, Hb.
  apply status_ok_iff in Hs. now rewrite Hs.
Qed.

Lemma generate_answer_success_verbatim_witness :
  generate_answer (fun s _ => s)
    (fun _ _ => Response 200 (Content (lit "Fees are due in May.")))
    (lit "exam fees") [(lit "a.pdf", lit "Exam fees")] true []
  = (Ret (lit "Fees are due in May."),
     [] ++ [Post (chat_request (lit "exam fees")
                    (context_text_of
                       (search_index (lit "exam fees")
                          [(lit "a.pdf", lit "Exam fees")])))]).
Proof.
  apply (generate_answer_success_verbatim (fun s _ => s)
           (fun _ _ => Response 200 (Content (lit "Fees are due in May.")))
           (lit "exam fees") [(lit "a.pdf", lit "Exam fees")] true []
           200 (lit "Fees are due in May.")).
  - vm_compute. discriminate.
  - reflexivity.
  - left. lia.
Defined.

(** X14.  When there is a match, the first event [generate_answer] adds
    is the request to the backend, and the user message of that request
    holds, unabridged, the query, and the document name and the chunk
    text of every match. *)
Theorem generate_answer_sends_matches
    (textwrap_fill : str -> nat -> str)
    (backend : list event -> request -> reply)
    (query : str) (index : list entry) (use_llm : bool) (log : list event) :
  search_index query index <> [] ->
  exists result prompt rest,
    generate_answer textwrap_fill backend query index use_llm log
    = (result,
       log ++ Post {| url := OLLAMA_URL;
                      json := {| model := OLLAMA_MODEL;
                                 messages := [(lit "system", system_prompt);
                                              (lit "user", prompt)];
                                 stream := false |};
                      timeout := 120 |} :: rest)
    /\ str_in query prompt = true
    /\ forall m, In m (search_index query index) ->
         str_in (fst m) prompt = true /\ str_in (snd m) prompt = true.
Proof.
  intros Hne. rewrite generate_answer_unfold by exact Hne.
  unfold try_except. rewrite call_ollama_llm_result.
  set (context := context_text_of (search_index query index)).
  assert (Hshape : exists result rest,
             (let (o, log') :=
                (match backend log (chat_request query context) with
                 | NoReply => Raise ConnectionError
                 | Response status b =>
                     if (400 <=? status) && (status <? 600)
                     then Raise (HTTPError status)
                     else match b with
                          | Malformed => Raise JSONDecodeError
                          | MissingContent => Raise KeyError
                          | Content text => Ret text
                          end
                 end, log ++ [Post (chat_request query context)]) in
              match o with
              | Ret a => (Ret a, log')
              | Raise e =>
                  (_ <- emit (Warning e) ;;
                   ret (build_strict_answer_from_chunks textwrap_fill
                          (search_index query index))) log'
              end)
             = (result, log ++ Post (chat_request query context) :: rest)).
  { destruct (match backend log (chat_request query context) with
              | NoReply => Raise ConnectionError
              | Response status b =>
                  if (400 <=? status) && (status <? 600)
                  then Raise (HTTPError status)
                  else match b with
                       | Malformed => Raise JSONDecodeError
                       | MissingContent => Raise KeyError
                       | Content text => Ret text
                       end
              end) as [a|e].
    - exists (Ret a), []. reflexivity.
    - eexists. exists [Warning e]. unfold bind, emit, ret.
      now rewrite <- app_assoc. }
  destruct Hshape as [result [rest Hshape]].
  exists result, (user_prompt query context), rest.
  split; [exact Hshape|].
  destruct (user_prompt_contains query context) as [Hq Hc].
  split; [now apply str_in_spec|].
  intros m Hm.
  destruct (context_text_contains (search_index query index) m Hm)
    as [Hname Hchunk].
  split; apply str_in_spec.
  - now apply substring_trans with (b := context).
  - now apply substring_trans with (b := context).
Qed.

Lemma generate_answer_sends_matches_witness :
  exists result prompt rest,
    generate_answer (fun s _ => s) (fun _ _ => NoReply)
      (lit "fees") [(lit "a.pdf", lit "Exam fees")] true []
    = (result,
       [] ++ Post {| url := OLLAMA_URL;
                     json := {| model := OLLAMA_MODEL;
                                messages := [(lit "system", system_prompt);
                                             (lit "user", prompt)];
                                stream := false |};
                     timeout := 120 |} :: rest)
    /\ str_in (lit "fees") prompt = true
    /\ forall m, In m (search_index (lit "fees")
                         [(lit "a.pdf", lit "Exam fees")]) ->
         str_in (fst m) prompt = true /\ str_in (snd m) prompt = true.
Proof.
  apply (generate_answer_sends_matches (fun s _ => s) (fun _ _ => NoReply)).
  vm_compute. discriminate.
Defined.

Lemma join_head (sep : str) (c : ascii) (p : str) (rest : list str) :
  exists tail, join sep ((c :: p) :: rest) = c :: tail.
Proof. destruct rest; simpl; eexists; reflexivity. Qed.

Lemma excerpt_block_head (textwrap_fill : str -> nat -> str) (m : entry) :
  exists tail, excerpt_block textwrap_fill m = "F"%char :: tail.
Proof. destruct m. eexists. reflexivity. Qed.

(** X15.  With a backend whose every call fails, [generate_answer] never
    returns the "no exact answer" message of
    [build_strict_answer_from_chunks]: the fallback is only reached with at
    least one match, so that branch of it is never taken. *)
Theorem generate_answer_never_no_exact_answer
    (textwrap_fill : str -> nat -> str)
    (backend : list event -> request -> reply)
    (query : str) (index : list entry) (use_llm : bool) (log : list event) :
  (forall question context l,
      exists e l', call_ollama_llm backend question context l = (Raise e, l')) ->
  exists answer events,
    generate_answer textwrap_fill backend query index use_llm log
    = (Ret answer, log ++ events)
    /\ answer <> NO_EXACT_ANSWER_MESSAGE.
Proof.
  intros Hfail.
  destruct (search_index query index) as [|m matches] eqn:E.
  - exists NO_MATCH_MESSAGE, []. unfold generate_answer. rewrite E.
    split; [now rewrite app_nil_r|]. vm_compute. discriminate.
  - assert (Hne : search_index query index <> []) by (rewrite E; discriminate).
    rewrite generate_answer_unfold by exact Hne. unfold try_except.
    rewrite call_ollama_llm_result.
    destruct (Hfail query (context_text_of (search_index query index)) log)
      as [e [l' Hraise]].
    rewrite call_ollama_llm_result in Hraise.
    apply pair_equal_spec in Hraise. destruct Hraise as [Hraise _].
    rewrite Hraise. rewrite E.
    exists (build_strict_answer_from_chunks textwrap_fill (m :: matches)),
      [Post (chat_request query (context_text_of (m :: matches)));
       Warning e].
    split; [unfold bind, emit, ret; now rewrite <- app_assoc|].
    rewrite build_strict_answer_blocks by discriminate.
    destruct (excerpt_block_head textwrap_fill m) as [t Hb].
    cbn [map]. rewrite Hb.
    destruct (join_head BLOCK_SEPARATOR "F"%char t
                (map (excerpt_block textwrap_fill) matches)) as [tail Ht].
    intros Habs. pose proof (eq_trans (eq_sym Ht) Habs) as H.
    vm_compute in H. discriminate H.
Qed.

Lemma generate_answer_never_no_exact_answer_witness :
  exists answer events,
    generate_answer (fun s _ => s) (fun _ _ => NoReply)
      (lit "fees") [(lit "a.pdf", lit "Exam fees")] true []
    = (Ret answer, [] ++ events)
    /\ answer <> NO_EXACT_ANSWER_MESSAGE.
Proof.
  apply (generate_answer_never_no_exact_answer (fun s _ => s)
           (fun _ _ => NoReply)).
  intros question context l. eexists. eexists. reflexivity.
Defined.

(** ** Document loading *)

Section LoadingFacts.
Variable isdir : str -> bool.
Variable listdir : str -> list str.
Variable path_join : str -> str -> str.
Variable pdfplumber_open : str -> pdf_file.

Lemma load_file_eq (folder_path filename : str)
    (documents : list (str * str)) (warnings : list load_warning) :
  load_file path_join pdfplumber_open folder_path (documents, warnings)
    filename
  = (documents
     ++ file_documents path_join pdfplumber_open folder_path filename,
     warnings
     ++ file_warnings path_join pdfplumber_open folder_path filename).
Proof.
  unfold load_file, file_documents, file_warnings.
  destruct (endswith (lower filename) (lit ".pdf"));
    [|now rewrite !app_nil_r].
  destruct (pdfplumber_open (path_join folder_path filename))
    as [message|pages|pages message].
  - now rewrite app_nil_r.
  - destruct (truthy (full_text_of pages)); now rewrite !app_nil_r.
  - destruct (truthy (full_text_of pages)); now rewrite ?app_nil_r.
Qed.

Lemma load_files_eq (folder_path : str) (files : list str)
    (documents : list (str * str)) (warnings : list load_warning) :
  fold_left (load_file path_join pdfplumber_open folder_path) files
    (documents, warnings)
  = (documents
     ++ flat_map (file_documents path_join pdfplumber_open folder_path) files,
     warnings
     ++ flat_map (file_warnings path_join pdfplumber_open folder_path) files).
Proof.
  revert documents warnings; induction files as [|f files IH];
    intros documents warnings.
  - simpl. now rewrite !app_nil_r.
  - cbn [fold_left flat_map]. rewrite load_file_eq, IH.
    now rewrite <- !app_assoc.
Qed.

Lemma load_pdfs_eq (folder_path : str) :
  load_pdfs isdir listdir path_join pdfplumber_open folder_path
  = if isdir folder_path
    then (flat_map (file_documents path_join pdfplumber_open folder_path)
            (listdir folder_path),
          flat_map (file_warnings path_join pdfplumber_open folder_path)
            (listdir folder_path))
    else ([], []).
Proof.
  unfold load_pdfs. destruct (isdir folder_path); [|reflexivity].
  cbn [negb]. now rewrite load_files_eq.
Qed.

Lemma full_text_of_eq (pages : list (option str)) :
  full_text_of pages = strip (join NL (map page_text pages)).
Proof. unfold full_text_of. now rewrite fold_left_snoc. Qed.

Lemma in_file_documents (folder_path filename name text : str) :
  In (name, text)
     (file_documents path_join pdfplumber_open folder_path filename) ->
  name = filename
  /\ endswith (lower name) (lit ".pdf") = true
  /\ text <> []
  /\ exists pages,
       text = strip (join NL (map page_text pages))
       /\ (pdfplumber_open (path_join folder_path name) = Pages pages
           \/ exists message,
                pdfplumber_open (path_join folder_path name)
                = CloseFailed pages message).
Proof.
  unfold file_documents.
  destruct (endswith (lower filename) (lit ".pdf")) eqn:Epdf;
    [|intros []].
  destruct (pdfplumber_open (path_join folder_path filename))
    as [message|pages|pages message] eqn:Eopen; [intros []| |].
  - destruct (truthy (full_text_of pages)) eqn:Et; [|intros []].
    intros [H|[]]. injection H as <- <-.
    split; [reflexivity|]. split; [exact Epdf|]. split.
    + intros E. rewrite E in Et. discriminate.
    + exists pages. split; [apply full_text_of_eq|]. now left.
  - destruct (truthy (full_text_of pages)) eqn:Et; [|intros []].
    intros [H|[]]. injection H as <- <-.
    split; [reflexivity|]. split; [exact Epdf|]. split.
    + intros E. rewrite E in Et. discriminate.
    + exists pages. split; [apply full_text_of_eq|]. right. now exists message.
Qed.

Lemma load_pdfs_documents (folder_path name text : str) :
  In (name, text)
     (fst (load_pdfs isdir listdir path_join pdfplumber_open folder_path)) ->
  isdir folder_path = true
  /\ In name (listdir folder_path)
  /\ endswith (lower name) (lit ".pdf") = true
  /\ text <> []
  /\ exists pages,
       text = strip (join NL (map page_text pages))
       /\ (pdfplumber_open (path_join folder_path name) = Pages pages
           \/ exists message,
                pdfplumber_open (path_join folder_path name)
                = CloseFailed pages message).
Proof.
  rewrite load_pdfs_eq. destruct (isdir folder_path); [|intros []].
  cbn [fst]. intros H. apply in_flat_map in H.
  destruct H as [filename [Hf H]].
  apply in_file_documents in H. destruct H as [-> H].
  split; [reflexivity|]. split; [exact Hf|exact H].
Qed.
End LoadingFacts.

(** X16.  Every document [load_pdfs] returns is named after a listed file
    of the folder whose name ends in .pdf (in any letter case), and its
    text is the page texts joined by newlines and trimmed (a page without
    text counting as empty), which is never the empty string: files
    without text are left out. *)
Theorem load_pdfs_documents_well_formed
    (isdir : str -> bool) (listdir : str -> list str)
    (path_join : str -> str -> str) (pdfplumber_open : str -> pdf_file)
    (folder_path name text : str) :
  In (name, text)
     (fst (load_pdfs isdir listdir path_join pdfplumber_open folder_path)) ->
  isdir folder_path = true
  /\ In name (listdir folder_path)
  /\ endswith (lower name) (lit ".pdf") = true
  /\ text <> []
  /\ strip text = text
  /\ exists pages,
       text = strip (join NL (map page_text pages))
       /\ (pdfplumber_open (path_join folder_path name) = Pages pages
           \/ exists message,
                pdfplumber_open (path_join folder_path name)
                = CloseFailed pages message).
Proof.
  intros H. apply load_pdfs_documents in H.
  destruct H as [Hdir [Hin [Hpdf [Hne [pages [Ht Hopen]]]]]].
  repeat (split; [assumption|]). split.
  - rewrite Ht. apply strip_idempotent.
  - now exists pages.
Qed.

Lemma load_pdfs_documents_well_formed_witness :
  In (lit "Policy.PDF") [lit "notes.txt"; lit "Policy.PDF"]
  /\ endswith (lower (lit "Policy.PDF")) (lit ".pdf") = true
  /\ lit "Rules" <> [].
Proof.
  destruct (load_pdfs_documents_well_formed
              (fun _ => true)
              (fun _ => [lit "notes.txt"; lit "Policy.PDF"])
              (fun a b => a ++ lit "/" ++ b)
              (fun _ => Pages [Some (lit " Rules"); None])
              PDF_FOLDER (lit "Policy.PDF") (lit "Rules"))
    as [_ [Hin [Hpdf [Hne _]]]].
  - vm_compute. left. reflexivity.
  - split; [exact Hin|]. split; [exact Hpdf|exact Hne].
Defined.

(** X17.  [load_pdfs] warns about a file exactly when the folder exists,
    the file is listed, its name ends in .pdf and reading it raised; the
    warning carries the file name and the error.  Other files are passed
    over in silence. *)
Theorem load_pdfs_warnings_iff
    (isdir : str -> bool) (listdir : str -> list str)
    (path_join : str -> str -> str) (pdfplumber_open : str -> pdf_file)
    (folder_path name message : str) :
  In (CouldNotRead name message)
     (snd (load_pdfs isdir listdir path_join pdfplumber_open folder_path))
  <-> isdir folder_path = true
      /\ In name (listdir folder_path)
      /\ endswith (lower name) (lit ".pdf") = true
      /\ (pdfplumber_open (path_join folder_path name) = Unreadable message
          \/ exists pages,
               pdfplumber_open (path_join folder_path name)
               = CloseFailed pages message).
Proof.
  rewrite load_pdfs_eq. destruct (isdir folder_path).
  - cbn [snd]. rewrite in_flat_map. split.
    + intros [filename [Hf H]]. unfold file_warnings in H.
      destruct (endswith (lower filename) (lit ".pdf")) eqn:Epdf;
        [|destruct H].
      destruct (pdfplumber_open (path_join folder_path filename))
        as [m|pages|pages m] eqn:Eopen.
      * destruct H as [H|[]]. injection H as <- <-.
        repeat (split; [assumption || reflexivity|]). now left.
      * destruct H.
      * destruct H as [H|[]]. injection H as <- <-.
        repeat (split; [assumption || reflexivity|]). right. now exists pages.
    + intros [_ [Hf [Hpdf Hopen]]]. exists name. split; [exact Hf|].
      unfold file_warnings. rewrite Hpdf.
      destruct Hopen as [->|[pages ->]]; now left.
  - cbn [snd]. split; [intros []|intros [H _]; discriminate H].
Qed.

Lemma load_pdfs_warnings_iff_witness :
  In (CouldNotRead (lit "bad.pdf") (lit "not a PDF"))
     (snd (load_pdfs (fun _ => true) (fun _ => [lit "bad.pdf"])
             (fun a b => a ++ lit "/" ++ b)
             (fun _ => Unreadable (lit "not a PDF")) PDF_FOLDER)).
Proof.
  apply (load_pdfs_warnings_iff (fun _ => true) (fun _ => [lit "bad.pdf"])
           (fun a b => a ++ lit "/" ++ b)
           (fun _ => Unreadable (lit "not a PDF"))).
  split; [reflexivity|]. split; [left; reflexivity|].
  split; [reflexivity|]. left. reflexivity.
Defined.

(** X18.  The documents come in listing order and each listed file gives
    at most one: the names of the documents are the listing with some
    files left out. *)
Theorem load_pdfs_listing_order
    (isdir : str -> bool) (listdir : str -> list str)
    (path_join : str -> str -> str) (pdfplumber_open : str -> pdf_file)
    (folder_path : str) :
  exists keep : str -> bool,
    map fst
        (fst (load_pdfs isdir listdir path_join pdfplumber_open folder_path))
    = filter keep (listdir folder_path).
Proof.
  rewrite load_pdfs_eq. destruct (isdir folder_path).
  - exists (fun f =>
              truthy (file_documents path_join pdfplumber_open folder_path f)).
    cbn [fst]. induction (listdir folder_path) as [|f files IH];
      [reflexivity|].
    cbn [flat_map filter]. rewrite map_app, IH.
    unfold file_documents at 1 3.
    destruct (endswith (lower f) (lit ".pdf")); [|reflexivity].
    destruct (pdfplumber_open (path_join folder_path f));
      try reflexivity;
      destruct (truthy (full_text_of pages)); reflexivity.
  - exists (fun _ => false). cbn [fst map].
    induction (listdir folder_path) as [|f files IH]; [reflexivity|exact IH].
Qed.

(** ** The cached index and the document names *)

Lemma nat_of_ascii_inj (a b : ascii) :
  nat_of_ascii a = nat_of_ascii b -> a = b.
Proof.
  intros H. rewrite <- (ascii_nat_embedding a), <- (ascii_nat_embedding b).
  now rewrite H.
Qed.

Lemma str_ltb_trichotomy (a b : str) :
  str_ltb a b = false -> str_ltb b a = false -> a = b.
Proof.
  revert b; induction a as [|x a IH]; intros [|y b]; simpl;
    try discriminate; [reflexivity|].
  destruct (Nat.ltb_spec (nat_of_ascii x) (nat_of_ascii y)) as [Hxy|Hxy];
    [discriminate|].
  destruct (Nat.ltb_spec (nat_of_ascii y) (nat_of_ascii x)) as [Hyx|Hyx];
    [discriminate|].
  intros H1 H2. f_equal.
  - apply nat_of_ascii_inj. lia.
  - now apply IH.
Qed.

Lemma in_insert_name (n x : str) (l : list str) :
  In n (insert_name x l) <-> n = x \/ In n l.
Proof.
  induction l as [|y l IH]; simpl.
  - intuition congruence.
  - destruct (str_ltb x y) eqn:Exy; [simpl; intuition congruence|].
    destruct (str_ltb y x) eqn:Eyx.
    + simpl. rewrite IH. intuition congruence.
    + assert (x = y) by now apply str_ltb_trichotomy.
      subst y. simpl. intuition congruence.
Qed.

Lemma in_sorted_set (n : str) (names : list str) :
  In n (sorted_set names) <-> In n names.
Proof.
  induction names as [|x names IH]; simpl; [reflexivity|].
  rewrite in_insert_name, IH. intuition congruence.
Qed.

Lemma ascending_tail (x : str) (l : list str) :
  ascending (x :: l) = true -> ascending l = true.
Proof.
  destruct l as [|y l]; [reflexivity|].
  change (ascending (x :: y :: l))
    with (str_ltb x y && ascending (y :: l)).
  intros H. now apply andb_true_iff in H.
Qed.

Lemma ascending_insert_name (x : str) (l : list str) :
  ascending l = true -> ascending (insert_name x l) = true.
Proof.
  induction l as [|y l IH]; intros Ha; [reflexivity|].
  simpl. destruct (str_ltb x y) eqn:Exy.
  - change (ascending (x :: y :: l))
      with (str_ltb x y && ascending (y :: l)).
    now rewrite Exy, Ha.
  - destruct (str_ltb y x) eqn:Eyx; [|exact Ha].
    assert (Hi := IH (ascending_tail y l Ha)).
    destruct l as [|z l].
    + simpl. now rewrite Eyx.
    + change (ascending (y :: z :: l))
        with (str_ltb y z && ascending (z :: l)) in Ha.
      apply andb_true_iff in Ha. destruct Ha as [Hyz _].
      simpl in Hi |- *.
      destruct (str_ltb x z); [|destruct (str_ltb z x)].
      * change (str_ltb y x && ascending (x :: z :: l) = true).
        now rewrite Eyx, Hi.
      * change (str_ltb y z
                && ascending (z :: insert_name x l) = true).
        now rewrite Hyz, Hi.
      * change (str_ltb y z && ascending (z :: l) = true).
        now rewrite Hyz, Hi.
Qed.

Lemma ascending_sorted_set (names : list str) :
  ascending (sorted_set names) = true.
Proof.
  induction names as [|x names IH]; [reflexivity|].
  simpl. now apply ascending_insert_name.
Qed.

Lemma lstrip_strip (s : str) : lstrip (strip s) = strip s.
Proof.
  unfold strip.
  destruct (rstrip (lstrip s)) as [|c r] eqn:Er; [reflexivity|].
  apply lstrip_fixed.
  destruct (rstrip_decompose (lstrip s)) as [ws [Hws Hd]].
  rewrite Er in Hd.
  destruct (lstrip s) as [|d t] eqn:El; [destruct ws; discriminate|].
  simpl in Hd. injection Hd as -> _.
  now apply lstrip_head with (s := s) (r := t).
Qed.

(** X19.  In whatever [get_index] returns, the names are in strictly
    ascending order (so none is repeated), and a name is listed exactly
    when the index holds a chunk of that document: every loaded document
    can be searched, and every chunk belongs to a listed document. *)
Theorem get_index_names_match_index
    (isdir : str -> bool) (listdir : str -> list str)
    (path_join : str -> str -> str) (pdfplumber_open : str -> pdf_file)
    (index : list entry) (doc_names : list str)
    (warnings : list load_warning) :
  get_index isdir listdir path_join pdfplumber_open
  = (Some (index, doc_names), warnings) ->
  ascending doc_names = true
  /\ forall name,
       In name doc_names <-> exists chunk, In (name, chunk) index.
Proof.
  unfold get_index.
  destruct (load_pdfs isdir listdir path_join pdfplumber_open PDF_FOLDER)
    as [documents warnings'] eqn:El.
  rewrite build_index_flat_map. intros Hget.
  apply pair_equal_spec in Hget. destruct Hget as [Hget _].
  assert (Hindex : index
            = flat_map
                (fun d => map (pair (fst d))
                              (filter truthy (chunks_of_document (snd d))))
                documents) by congruence.
  assert (Hnames : doc_names = sorted_set (map fst documents))
    by congruence.
  subst index doc_names. clear Hget.
  split; [apply ascending_sorted_set|].
  intros name. rewrite in_sorted_set, in_map_iff. split.
  - intros [[n text] [Hn Hd]]. cbn [fst] in Hn. subst n.
    assert (Hdoc : In (name, text)
              (fst (load_pdfs isdir listdir path_join pdfplumber_open
                      PDF_FOLDER))) by (now rewrite El).
    apply load_pdfs_documents in Hdoc.
    destruct Hdoc as [_ [_ [_ [Hne [pages [Ht _]]]]]].
    exists (strip (slice text 0 CHUNK_SIZE)).
    apply first_chunk_indexed; [exact Hd|exact Hne|].
    rewrite Ht. apply lstrip_strip.
  - intros [chunk Hin]. apply in_flat_map in Hin.
    destruct Hin as [[n text] [Hd Hin]]. cbn [fst snd] in Hin.
    apply in_map_iff in Hin. destruct Hin as [c [Hc _]].
    injection Hc as -> _. now exists (name, text).
Qed.

Lemma get_index_names_match_index_witness :
  ascending [lit "a.pdf"; lit "b.PDF"] = true
  /\ forall name,
       In name [lit "a.pdf"; lit "b.PDF"]
       <-> exists chunk,
             In (name, chunk)
                [(lit "b.PDF", lit "Rules"); (lit "a.pdf", lit "Rules")].
Proof.
  apply (get_index_names_match_index
           (fun _ => true)
           (fun _ => [lit "b.PDF"; lit "notes.txt"; lit "a.pdf"])
           (fun a b => a ++ lit "/" ++ b)
           (fun _ => Pages [Some (lit " Rules"); None])
           [(lit "b.PDF", lit "Rules"); (lit "a.pdf", lit "Rules")]
           [lit "a.pdf"; lit "b.PDF"] []).
  vm_compute. reflexivity.
Defined.

Lemma no_pdf_documents (path_join : str -> str -> str)
    (pdfplumber_open : str -> pdf_file) (folder_path : str)
    (files : list str) :
  (forall f, In f files -> endswith (lower f) (lit ".pdf") = false) ->
  flat_map (file_documents path_join pdfplumber_open folder_path) files = [].
Proof.
  induction files as [|f files IH]; intros H; [reflexivity|].
  cbn [flat_map]. unfold file_documents at 1.
  rewrite (H f) by (now left). apply IH. intros g Hg. apply H. now right.
Qed.

Lemma no_pdf_warnings (path_join : str -> str -> str)
    (pdfplumber_open : str -> pdf_file) (folder_path : str)
    (files : list str) :
  (forall f, In f files -> endswith (lower f) (lit ".pdf") = false) ->
  flat_map (file_warnings path_join pdfplumber_open folder_path) files = [].
Proof.
  induction files as [|f files IH]; intros H; [reflexivity|].
  cbn [flat_map]. unfold file_warnings at 1.
  rewrite (H f) by (now left). apply IH. intros g Hg. apply H. now right.
Qed.

(** X20.  When the document folder is missing, or holds no file whose
    name ends in .pdf, [get_index] returns the empty index and no names,
    and shows no warning. *)
Theorem get_index_no_pdf
    (isdir : str -> bool) (listdir : str -> list str)
    (path_join : str -> str -> str) (pdfplumber_open : str -> pdf_file) :
  isdir PDF_FOLDER = false
  \/ (forall f, In f (listdir PDF_FOLDER) ->
        endswith (lower f) (lit ".pdf") = false) ->
  get_index isdir listdir path_join pdfplumber_open = (Some ([], []), []).
Proof.
  intros H. unfold get_index. rewrite load_pdfs_eq.
  destruct (isdir PDF_FOLDER); [|reflexivity].
  destruct H as [H|H]; [discriminate|].
  rewrite (no_pdf_documents path_join pdfplumber_open PDF_FOLDER _ H).
  rewrite (no_pdf_warnings path_join pdfplumber_open PDF_FOLDER _ H).
  reflexivity.
Qed.

Lemma get_index_no_pdf_witness :
  get_index (fun _ => true) (fun _ => [lit "notes.txt"; lit "pdf"])
    (fun a b => a ++ lit "/" ++ b) (fun _ => Pages [Some (lit "x")])
  = (Some ([], []), []).
Proof.
  apply get_index_no_pdf. right.
  intros f [<-|[<-|[]]]; reflexivity.
Defined.
